(** * rfnoc_tx_streamer: the TX streamer node of the RFNoC graph

    A shallow embedding of [host/lib/rfnoc/rfnoc_tx_streamer.cpp] and the
    properties of its MTU negotiation, topology check, channel attachment and
    per-channel resolvers.

    Conventions.
    - [size_t] payload sizes and the instance counter are [N]; the only
      arithmetic the unit does on them is the post-increment of the 64-bit
      counter, whose wrap-around is written out.  Channel indices and vector
      sizes are [nat], since they index the property vectors.
    - [double] is the kernel's binary64 [float].
    - A C++ exception is a result [Err e] next to the state reached when it
      is thrown, so that a mutation made before a throw stays visible.
    - The lambdas handed to [add_property_resolver] are first-order values
      of [resolver_fn]; their captures are the constructor arguments and
      [run_resolver] is their body. *)

From Stdlib Require Import Floats.
From stdpp Require Import base list strings pretty gmap.

Open Scope N_scope.
Open Scope nat_scope.

(** ** Data *)

(** [forwarding_policy_t] of [node_t]; this unit only names [DROP]. *)
Inductive forwarding_policy_t :=
  | ONE_TO_ONE | ONE_TO_FAN | ONE_TO_ALL_IN | ONE_TO_ALL_OUT | ONE_TO_ALL | DROP.

Inductive source_t := INPUT_EDGE | OUTPUT_EDGE.

Record res_source_info := { src_type : source_t; instance : nat }.

Inductive prop_key :=
  | PROP_KEY_SCALING | PROP_KEY_SAMP_RATE | PROP_KEY_TICK_RATE
  | PROP_KEY_TYPE | PROP_KEY_MTU.

#[global] Instance forwarding_policy_eq_dec : EqDecision forwarding_policy_t.
Proof. solve_decision. Defined.
#[global] Instance source_eq_dec : EqDecision source_t.
Proof. solve_decision. Defined.
#[global] Instance res_source_info_eq_dec : EqDecision res_source_info.
Proof. solve_decision. Defined.
#[global] Instance prop_key_eq_dec : EqDecision prop_key.
Proof. solve_decision. Defined.

(** The identity of a property: its key and the edge it sits on. *)
Definition prop_id : Type := prop_key * res_source_info.

Definition out_edge (chan : nat) : res_source_info :=
  {| src_type := OUTPUT_EDGE; instance := chan |}.

(** The template argument of [property_t] and [set_property] for each key. *)
Definition prop_data_t (k : prop_key) : Type :=
  match k with
  | PROP_KEY_TYPE => string
  | PROP_KEY_MTU => N
  | _ => float
  end.

(** [property_t<T>], whose declaration is outside this unit.  Modelled from
    the spec: a property has a key, an edge and "value: Option<T>", and "a
    property with valid == false carries no meaningful value":
    [prop_data = None] is the property that is not valid. *)
Record property_t (T : Type) := mk_property {
  get_id : prop_key;
  get_src_info : res_source_info;
  prop_data : option T
}.
Arguments mk_property {T} _ _ _.
Arguments get_id {T} _.
Arguments get_src_info {T} _.
Arguments prop_data {T} _.

(** [property_t(id, src)] and [property_t(id, value, src)]. *)
Definition new_property {T} (id : prop_key) (src : res_source_info) : property_t T :=
  mk_property id src None.
Definition new_property_with {T} (id : prop_key) (value : T) (src : res_source_info)
  : property_t T :=
  mk_property id src (Some value).

Definition is_valid {T} (p : property_t T) : bool :=
  match prop_data p with Some _ => true | None => false end.

(** [property_t::set]: stores the value and makes the property valid. *)
Definition prop_set {T} (value : T) (p : property_t T) : property_t T :=
  mk_property (get_id p) (get_src_info p) (Some value).

Definition prop_id_of {T} (p : property_t T) : prop_id := (get_id p, get_src_info p).

(** [uhd::stream_args_t]: the wire format the constructor reads, and the
    remaining key/value options. *)
Record stream_args_t := { otw_format : string; args : list (string * string) }.

(** [chdr_tx_data_xport], seen through [get_max_payload_size]. *)
Record chdr_tx_data_xport := { get_max_payload_size : N }.

(** The calls into the device-control side of the streamer base. *)
Inductive dev_call :=
  | set_scale_factor (chan : nat) (scale_factor : float)
  | set_samp_rate (rate : float)
  | set_tick_rate (rate : float).

(** The four lambdas of this unit.  [ref] is the captured reference, as the
    position of the captured element in its vector; the second argument is
    the channel captured by value. *)
Inductive resolver_fn :=
  | SCALING_RESOLVER (ref chan : nat)
  | SAMP_RATE_RESOLVER (ref chan : nat)
  | TICK_RATE_RESOLVER (ref chan : nat)
  | MTU_RESOLVER (ref i : nat).

Record resolver_t := {
  res_inputs : list prop_id;
  res_outputs : list prop_id;
  res_fn : resolver_fn
}.

(** The streamer object: its own members, then those of the streamer base
    [tx_streamer_impl], then those of [node_t]. *)
Record node := mk_node {
  _unique_id : string;
  _stream_args : stream_args_t;
  _scaling_out : list (property_t float);
  _samp_rate_out : list (property_t float);
  _tick_rate_out : list (property_t float);
  _type_out : list (property_t string);
  _mtu_out : list (property_t N);
  _num_chans : nat;
  _mtu : N;
  dev_calls : list dev_call;
  _xports : gmap nat chdr_tx_data_xport;
  _prop_fwd_policy : forwarding_policy_t;
  _action_fwd_policy : forwarding_policy_t;
  _props : list prop_id;
  _prop_resolvers : list resolver_t;
  _dirty : list prop_id
}.

Module upd.
Definition scaling_out (f : list (property_t float) → list (property_t float)) (s : node) :=
  mk_node (_unique_id s) (_stream_args s) (f (_scaling_out s)) (_samp_rate_out s)
    (_tick_rate_out s) (_type_out s) (_mtu_out s) (_num_chans s) (_mtu s) (dev_calls s)
    (_xports s) (_prop_fwd_policy s) (_action_fwd_policy s) (_props s)
    (_prop_resolvers s) (_dirty s).
Definition samp_rate_out (f : list (property_t float) → list (property_t float)) (s : node) :=
  mk_node (_unique_id s) (_stream_args s) (_scaling_out s) (f (_samp_rate_out s))
    (_tick_rate_out s) (_type_out s) (_mtu_out s) (_num_chans s) (_mtu s) (dev_calls s)
    (_xports s) (_prop_fwd_policy s) (_action_fwd_policy s) (_props s)
    (_prop_resolvers s) (_dirty s).
Definition tick_rate_out (f : list (property_t float) → list (property_t float)) (s : node) :=
  mk_node (_unique_id s) (_stream_args s) (_scaling_out s) (_samp_rate_out s)
    (f (_tick_rate_out s)) (_type_out s) (_mtu_out s) (_num_chans s) (_mtu s) (dev_calls s)
    (_xports s) (_prop_fwd_policy s) (_action_fwd_policy s) (_props s)
    (_prop_resolvers s) (_dirty s).
Definition type_out (f : list (property_t string) → list (property_t string)) (s : node) :=
  mk_node (_unique_id s) (_stream_args s) (_scaling_out s) (_samp_rate_out s)
    (_tick_rate_out s) (f (_type_out s)) (_mtu_out s) (_num_chans s) (_mtu s) (dev_calls s)
    (_xports s) (_prop_fwd_policy s) (_action_fwd_policy s) (_props s)
    (_prop_resolvers s) (_dirty s).
Definition mtu_out (f : list (property_t N) → list (property_t N)) (s : node) :=
  mk_node (_unique_id s) (_stream_args s) (_scaling_out s) (_samp_rate_out s)
    (_tick_rate_out s) (_type_out s) (f (_mtu_out s)) (_num_chans s) (_mtu s) (dev_calls s)
    (_xports s) (_prop_fwd_policy s) (_action_fwd_policy s) (_props s)
    (_prop_resolvers s) (_dirty s).
Definition mtu (m : N) (s : node) :=
  mk_node (_unique_id s) (_stream_args s) (_scaling_out s) (_samp_rate_out s)
    (_tick_rate_out s) (_type_out s) (_mtu_out s) (_num_chans s) m (dev_calls s)
    (_xports s) (_prop_fwd_policy s) (_action_fwd_policy s) (_props s)
    (_prop_resolvers s) (_dirty s).
Definition calls (f : list dev_call → list dev_call) (s : node) :=
  mk_node (_unique_id s) (_stream_args s) (_scaling_out s) (_samp_rate_out s)
    (_tick_rate_out s) (_type_out s) (_mtu_out s) (_num_chans s) (_mtu s) (f (dev_calls s))
    (_xports s) (_prop_fwd_policy s) (_action_fwd_policy s) (_props s)
    (_prop_resolvers s) (_dirty s).
Definition xports (f : gmap nat chdr_tx_data_xport → gmap nat chdr_tx_data_xport)
    (s : node) :=
  mk_node (_unique_id s) (_stream_args s) (_scaling_out s) (_samp_rate_out s)
    (_tick_rate_out s) (_type_out s) (_mtu_out s) (_num_chans s) (_mtu s) (dev_calls s)
    (f (_xports s)) (_prop_fwd_policy s) (_action_fwd_policy s) (_props s)
    (_prop_resolvers s) (_dirty s).
Definition prop_fwd_policy (p : forwarding_policy_t) (s : node) :=
  mk_node (_unique_id s) (_stream_args s) (_scaling_out s) (_samp_rate_out s)
    (_tick_rate_out s) (_type_out s) (_mtu_out s) (_num_chans s) (_mtu s) (dev_calls s)
    (_xports s) p (_action_fwd_policy s) (_props s)
    (_prop_resolvers s) (_dirty s).
Definition action_fwd_policy (p : forwarding_policy_t) (s : node) :=
  mk_node (_unique_id s) (_stream_args s) (_scaling_out s) (_samp_rate_out s)
    (_tick_rate_out s) (_type_out s) (_mtu_out s) (_num_chans s) (_mtu s) (dev_calls s)
    (_xports s) (_prop_fwd_policy s) p (_props s)
    (_prop_resolvers s) (_dirty s).
Definition props (f : list prop_id → list prop_id) (s : node) :=
  mk_node (_unique_id s) (_stream_args s) (_scaling_out s) (_samp_rate_out s)
    (_tick_rate_out s) (_type_out s) (_mtu_out s) (_num_chans s) (_mtu s) (dev_calls s)
    (_xports s) (_prop_fwd_policy s) (_action_fwd_policy s) (f (_props s))
    (_prop_resolvers s) (_dirty s).
Definition prop_resolvers (f : list resolver_t → list resolver_t) (s : node) :=
  mk_node (_unique_id s) (_stream_args s) (_scaling_out s) (_samp_rate_out s)
    (_tick_rate_out s) (_type_out s) (_mtu_out s) (_num_chans s) (_mtu s) (dev_calls s)
    (_xports s) (_prop_fwd_policy s) (_action_fwd_policy s) (_props s)
    (f (_prop_resolvers s)) (_dirty s).
Definition dirty (f : list prop_id → list prop_id) (s : node) :=
  mk_node (_unique_id s) (_stream_args s) (_scaling_out s) (_samp_rate_out s)
    (_tick_rate_out s) (_type_out s) (_mtu_out s) (_num_chans s) (_mtu s) (dev_calls s)
    (_xports s) (_prop_fwd_policy s) (_action_fwd_policy s) (_props s)
    (_prop_resolvers s) (f (_dirty s)).
End upd.

(** ** Exceptions and state *)

Inductive error := DuplicateProperty | ResolutionDivergence | OutOfRange.

Inductive result (A : Type) := Ok (a : A) | Err (e : error).
Arguments Ok {A} _.
Arguments Err {A} _.

Definition M (A : Type) : Type := node → result A * node.

Definition ret {A} (a : A) : M A := λ s, (Ok a, s).
Definition throw {A} (e : error) : M A := λ s, (Err e, s).
Definition bind {A B} (c : M A) (k : A → M B) : M B :=
  λ s, match c s with
       | (Ok a, s') => k a s'
       | (Err e, s') => (Err e, s')
       end.
Definition get_state : M node := λ s, (Ok s, s).
Definition modify (f : node → node) : M unit := λ s, (Ok tt, f s).

Declare Scope m_scope.
Delimit Scope m_scope with M.
Notation "'let*' x ':=' c 'in' k" := (bind c (λ x, k))
  (at level 10, x name, c at level 100, k at level 200) : m_scope.
Notation "c ';;;' k" := (bind c (λ _, k))
  (at level 100, k at level 200, right associativity) : m_scope.

(** [for (x : xs) body(x)], stopping at the first exception. *)
Fixpoint for_each {A} (xs : list A) (body : A → M unit) : M unit :=
  match xs with
  | [] => ret tt
  | x :: xs' => (body x ;;; for_each xs' body)%M
  end.

(** [UHD_ASSERT_THROW(cond)]: the failed assertion of a channel index is the
    out-of-range error of the node. *)
Definition UHD_ASSERT_THROW (cond : bool) : M unit :=
  if cond then ret tt else throw OutOfRange.

(** ** The streamer base and the node base *)

(** Modelled from the spec: [tx_streamer_impl::get_num_channels] is outside
    this unit; the streamer base holds the "channel count" it was built
    with. *)
Definition get_num_channels (s : node) : nat := _num_chans s.

(** Modelled from the spec: [tx_streamer_impl::get_mtu] is outside this
    unit; the base "supplies get_mtu()/set_mtu() as the node's own aggregate
    state". *)
Definition get_mtu (s : node) : N := _mtu s.

(** Modelled from the spec: [tx_streamer_impl::set_mtu] is outside this
    unit; see [get_mtu]. *)
Definition set_mtu (mtu : N) (s : node) : node := upd.mtu mtu s.

(** Modelled from the spec: the device-control calls of the base
    ([set_scale_factor], [set_samp_rate], [set_tick_rate]) are outside this
    unit; a call is appended to the log of calls made so far. *)
Definition call_device (c : dev_call) (s : node) : node :=
  upd.calls (λ l, l ++ [c]) s.

(** Modelled from the spec: [tx_streamer_impl::connect_channel] is outside
    this unit; it is "the low-level bind step invoked after MTU resolution",
    which hands the transport to the channel. *)
Definition base_connect_channel (channel : nat) (xport : chdr_tx_data_xport) : M unit :=
  modify (upd.xports (<[channel := xport]>)).

(** Modelled from the spec: [node_t::set_prop_forwarding_policy] is outside
    this unit; it stores what "the node declares" as [forward_properties]. *)
Definition set_prop_forwarding_policy (p : forwarding_policy_t) : M unit :=
  modify (upd.prop_fwd_policy p).

(** Modelled from the spec: [node_t::set_action_forwarding_policy] is
    outside this unit; it stores what "the node declares" as
    [forward_actions]. *)
Definition set_action_forwarding_policy (p : forwarding_policy_t) : M unit :=
  modify (upd.action_fwd_policy p).

(** Modelled from the spec: [register_property] of [node_t] is outside this
    unit; "register(property) adds a property to the node's registry;
    duplicate registration of the same (key, channel) fails with a
    DuplicateProperty error". *)
Definition register_property (id : prop_id) : M unit :=
  (let* s := get_state in
   if bool_decide (id ∈ _props s) then throw DuplicateProperty
   else modify (upd.props (λ l, l ++ [id])))%M.

(** Modelled from the spec: [node_t::add_property_resolver] is outside this
    unit; the engine owns a "list of Resolver instances" kept in
    "registration order", so a new resolver goes to the end. *)
Definition add_property_resolver (inputs outputs : list prop_id) (fn : resolver_fn)
  : M unit :=
  modify (upd.prop_resolvers
            (λ l, l ++ [{| res_inputs := inputs; res_outputs := outputs; res_fn := fn |}])).

(** Validity of the property with a given identity.  Every property of this
    node sits on an output edge, at the position of its channel. *)
Definition valid_at {T} (v : list (property_t T)) (i : nat) : bool :=
  match v !! i with
  | Some p => is_valid p
  | None => false
  end.

Definition prop_is_valid (id : prop_id) (s : node) : bool :=
  match src_type id.2 with
  | INPUT_EDGE => false
  | OUTPUT_EDGE =>
      match id.1 with
      | PROP_KEY_SCALING => valid_at (_scaling_out s) (instance id.2)
      | PROP_KEY_SAMP_RATE => valid_at (_samp_rate_out s) (instance id.2)
      | PROP_KEY_TICK_RATE => valid_at (_tick_rate_out s) (instance id.2)
      | PROP_KEY_TYPE => valid_at (_type_out s) (instance id.2)
      | PROP_KEY_MTU => valid_at (_mtu_out s) (instance id.2)
      end
  end.

(** Writing a value into the property of key [k] on channel [i]. *)
Definition store (k : prop_key) : prop_data_t k → nat → node → node :=
  match k with
  | PROP_KEY_SCALING => λ v i, upd.scaling_out (alter (prop_set v) i)
  | PROP_KEY_SAMP_RATE => λ v i, upd.samp_rate_out (alter (prop_set v) i)
  | PROP_KEY_TICK_RATE => λ v i, upd.tick_rate_out (alter (prop_set v) i)
  | PROP_KEY_TYPE => λ v i, upd.type_out (alter (prop_set v) i)
  | PROP_KEY_MTU => λ v i, upd.mtu_out (alter (prop_set v) i)
  end.

(** The properties [ids] have been written and await resolution. *)
Definition mark_dirty (ids : list prop_id) (s : node) : node :=
  upd.dirty (λ d, d ++ ids) s.

(** ** The resolvers of this unit *)

(** [for (auto& prop : this->_mtu_out) prop.set(mtu)]: every MTU property
    is written, and so becomes dirty. *)
Definition set_all_mtu_out (mtu : N) (s : node) : node :=
  mark_dirty (prop_id_of <$> _mtu_out s) (upd.mtu_out (fmap (prop_set mtu)) s).

(** The bodies of the lambdas.  A lambda reads its captured property and
    does nothing unless that property is valid. *)
Definition run_resolver (fn : resolver_fn) (s : node) : node :=
  match fn with
  | SCALING_RESOLVER ref chan =>
      match _scaling_out s !! ref with
      | Some scaling_out =>
          match prop_data scaling_out with
          | Some v => call_device (set_scale_factor chan (32767 / v)%float) s
          | None => s
          end
      | None => s
      end
  | SAMP_RATE_RESOLVER ref chan =>
      match _samp_rate_out s !! ref with
      | Some samp_rate_out =>
          match prop_data samp_rate_out with
          | Some v => call_device (set_samp_rate v) s
          | None => s
          end
      | None => s
      end
  | TICK_RATE_RESOLVER ref chan =>
      match _tick_rate_out s !! ref with
      | Some tick_rate_out =>
          match prop_data tick_rate_out with
          | Some v => call_device (set_tick_rate v) s
          | None => s
          end
      | None => s
      end
  | MTU_RESOLVER ref i =>
      match _mtu_out s !! ref with
      | Some mtu_out =>
          match prop_data mtu_out with
          | Some mtu =>
              if (mtu <? get_mtu s)%N
              then set_mtu mtu (set_all_mtu_out mtu s)
              else s
          | None => s
          end
      | None => s
      end
  end.

(** ** The resolution engine of [node_t] *)

(** Whether a read set meets the dirty set. *)
Definition intersects (xs ys : list prop_id) : bool :=
  existsb (λ x, bool_decide (x ∈ ys)) xs.

(** Modelled from the spec: "a resolver whose declared inputs are all
    invalid is skipped (no-op) rather than invoked". *)
Definition invoke (r : resolver_t) (s : node) : node :=
  if existsb (λ id, prop_is_valid id s) (res_inputs r)
  then run_resolver (res_fn r) s
  else s.

(** Modelled from the spec: one round of [resolve()], which "selects
    resolvers whose read set intersects the current dirty set, invokes each
    exactly once per round, collects any properties written during
    invocation into the next round's dirty set", in registration order. *)
Definition run_round (s : node) : node :=
  foldl (λ s' r, invoke r s') (upd.dirty (λ _, []) s)
    (List.filter (λ r, intersects (res_inputs r) (_dirty s)) (_prop_resolvers s)).

(** Modelled from the spec: [resolve()] "stops when a round produces no
    newly-dirty properties"; a round needed beyond the maximum round count
    "fails with ResolutionDivergence". *)
Fixpoint resolve_rounds (rounds : nat) (s : node) : result unit * node :=
  match _dirty s with
  | [] => (Ok tt, s)
  | _ :: _ =>
      match rounds with
      | O => (Err ResolutionDivergence, s)
      | S rounds' => resolve_rounds rounds' (run_round s)
      end
  end.

(** Modelled from the spec: [node_accessor_t::init_props] is outside this
    unit; it is the first pass of the engine over the resolvers, each taken
    once in "registration order" and skipped when its inputs are all
    invalid, after which "the dirty set is empty". *)
Definition init_props : M unit :=
  modify (λ s, upd.dirty (λ _, []) (foldl (λ s' r, invoke r s') s (_prop_resolvers s))).

Section Streamer.

(** The constant of the maximum round count, "the number of resolvers × a
    small constant". *)
Variable round_factor : nat.

(** [node_t::check_topology], the check of the base class that the
    connections are valid; it is outside this unit. *)
Variable node_check_topology : node → list nat → list nat → bool.

(** Modelled from the spec: [resolve()] of [node_t] is outside this unit;
    "the engine enforces a maximum round count (bounded by the number of
    resolvers × a small constant)". *)
Definition resolve : M unit :=
  λ s, resolve_rounds (round_factor * length (_prop_resolvers s)) s.

(** Modelled from the spec: [set_property] of [node_t] is outside this
    unit; "set(key, channel, value) updates the value, marks it valid,
    marks it dirty, and triggers resolution", and an index outside the
    channels is "rejected before any state mutation". *)
Definition set_property (k : prop_key) (v : prop_data_t k) (src : res_source_info)
  : M unit :=
  (let* s := get_state in
   if bool_decide ((k, src) ∈ _props s)
   then modify (λ s, mark_dirty [(k, src)] (store k v (instance src) s)) ;;; resolve
   else throw OutOfRange)%M.

(** *** [rfnoc_tx_streamer::_register_props] *)
Definition _register_props (chan : nat) (otw_format : string) : M unit :=
  (let* s := get_state in
   let scaling_out := new_property PROP_KEY_SCALING (out_edge chan) in
   let samp_rate_out := new_property PROP_KEY_SAMP_RATE (out_edge chan) in
   let tick_rate_out := new_property PROP_KEY_TICK_RATE (out_edge chan) in
   let type_out := new_property_with PROP_KEY_TYPE otw_format (out_edge chan) in
   let mtu_out := new_property PROP_KEY_MTU (out_edge chan) in
   modify (upd.scaling_out (λ v, v ++ [scaling_out])) ;;;
   modify (upd.samp_rate_out (λ v, v ++ [samp_rate_out])) ;;;
   modify (upd.tick_rate_out (λ v, v ++ [tick_rate_out])) ;;;
   modify (upd.type_out (λ v, v ++ [type_out])) ;;;
   modify (upd.mtu_out (λ v, v ++ [mtu_out])) ;;;
   register_property (prop_id_of scaling_out) ;;;
   register_property (prop_id_of samp_rate_out) ;;;
   register_property (prop_id_of tick_rate_out) ;;;
   register_property (prop_id_of type_out) ;;;
   register_property (prop_id_of mtu_out) ;;;
   add_property_resolver [prop_id_of scaling_out] []
     (SCALING_RESOLVER (length (_scaling_out s)) chan) ;;;
   add_property_resolver [prop_id_of samp_rate_out] []
     (SAMP_RATE_RESOLVER (length (_samp_rate_out s)) chan) ;;;
   add_property_resolver [prop_id_of tick_rate_out] []
     (TICK_RATE_RESOLVER (length (_tick_rate_out s)) chan))%M.

(** *** The constructor *)

Definition STREAMER_ID : string := "TxStreamer".

(** The object after the base-class and member initialisers.  The
    aggregate MTU the streamer base starts with is [base_mtu]. *)
Definition initial_node (unique_id : string) (num_chans : nat)
    (stream_args : stream_args_t) (base_mtu : N) : node :=
  {| _unique_id := unique_id; _stream_args := stream_args;
     _scaling_out := []; _samp_rate_out := []; _tick_rate_out := [];
     _type_out := []; _mtu_out := [];
     _num_chans := num_chans; _mtu := base_mtu; dev_calls := []; _xports := ∅;
     _prop_fwd_policy := ONE_TO_ONE; _action_fwd_policy := ONE_TO_ONE;
     _props := []; _prop_resolvers := []; _dirty := [] |}.

(** The body of the constructor.  The [reserve] calls keep the references
    to the vector elements stable and change no value.  [_mtu_out[i]] is
    unchecked in the source; the index is below the size there, and the
    [None] branch is never taken ([mtu_resolver_loop]). *)
Definition ctor_body (num_chans : nat) (stream_args : stream_args_t) : M unit :=
  (set_prop_forwarding_policy DROP ;;;
   set_action_forwarding_policy DROP ;;;
   for_each (seq 0 num_chans)
     (λ i, _register_props i (otw_format stream_args)) ;;;
   for_each (seq 0 num_chans)
     (λ i, let* s := get_state in
           let mtu_resolver_out := prop_id_of <$> _mtu_out s in
           match _mtu_out s !! i with
           | Some mtu_out =>
               add_property_resolver [prop_id_of mtu_out] mtu_resolver_out
                 (MTU_RESOLVER i i)
           | None => throw OutOfRange
           end) ;;;
   init_props)%M.

(** [streamer_inst_ctr++] on the 64-bit counter. *)
Definition next_ctr (ctr : N) : N := ((ctr + 1) mod 2 ^ 64)%N.

(** The constructor, given the value of [streamer_inst_ctr]; it returns
    the new object, or the exception, and the counter after it. *)
Definition rfnoc_tx_streamer (ctr : N) (num_chans : nat)
    (stream_args : stream_args_t) (base_mtu : N) : result node * N :=
  let unique_id := STREAMER_ID +:+ "#" +:+ pretty ctr in
  match ctor_body num_chans stream_args
          (initial_node unique_id num_chans stream_args base_mtu) with
  | (Ok _, s) => (Ok s, next_ctr ctr)
  | (Err e, _) => (Err e, next_ctr ctr)
  end.

(** *** The methods *)

Definition get_unique_id (s : node) : string := _unique_id s.
Definition get_num_input_ports (s : node) : nat := 0.
Definition get_num_output_ports (s : node) : nat := get_num_channels s.
Definition get_stream_args (s : node) : stream_args_t := _stream_args s.

Definition check_topology (connected_inputs connected_outputs : list nat) (s : node)
  : bool :=
  if negb (length connected_outputs =? get_num_output_ports s)
  then false
  else node_check_topology s connected_inputs connected_outputs.

Definition connect_channel (channel : nat) (xport : chdr_tx_data_xport) : M unit :=
  (let* s := get_state in
   UHD_ASSERT_THROW (bool_decide (channel < length (_mtu_out s))) ;;;
   let mtu := get_max_payload_size xport in
   set_property PROP_KEY_MTU mtu (out_edge channel) ;;;
   base_connect_channel channel xport)%M.

(** *** Sequences of operations *)

(** What a client of the node can do with it. *)
Inductive op :=
  | op_set_property (k : prop_key) (v : prop_data_t k) (src : res_source_info)
  | op_connect_channel (channel : nat) (xport : chdr_tx_data_xport)
  | op_check_topology (connected_inputs connected_outputs : list nat)
  | op_get_unique_id
  | op_get_num_input_ports
  | op_get_num_output_ports
  | op_get_stream_args.

(** The state after an operation, whether it returned or threw. *)
Definition step (o : op) (s : node) : node :=
  match o with
  | op_set_property k v src => (set_property k v src s).2
  | op_connect_channel channel xport => (connect_channel channel xport s).2
  | op_check_topology _ _ | op_get_unique_id | op_get_num_input_ports
  | op_get_num_output_ports | op_get_stream_args => s
  end.

Definition run_ops (ops : list op) (s : node) : node :=
  foldl (λ s' o, step o s') s ops.

(** The states of a node: the one the constructor returns, and those
    reached from it by operations. *)
Inductive reachable : node → Prop :=
  | reachable_new ctr num_chans stream_args base_mtu s ctr' :
      rfnoc_tx_streamer ctr num_chans stream_args base_mtu = (Ok s, ctr') →
      reachable s
  | reachable_step o s : reachable s → reachable (step o s).

End Streamer.

Arguments reachable : clear implicits.

(** ** Vocabulary of the statements *)

(** [same_frame s s']: the identifier, the stream arguments, the channel
    count, both forwarding policies, the registry, the resolvers and the
    sizes of the property vectors of [s'] are those of [s]. *)
Record same_frame (s s' : node) : Prop := {
  frame_unique_id : _unique_id s' = _unique_id s;
  frame_stream_args : _stream_args s' = _stream_args s;
  frame_num_chans : _num_chans s' = _num_chans s;
  frame_prop_fwd : _prop_fwd_policy s' = _prop_fwd_policy s;
  frame_action_fwd : _action_fwd_policy s' = _action_fwd_policy s;
  frame_props : _props s' = _props s;
  frame_resolvers : _prop_resolvers s' = _prop_resolvers s;
  frame_scaling : length (_scaling_out s') = length (_scaling_out s);
  frame_samp_rate : length (_samp_rate_out s') = length (_samp_rate_out s);
  frame_tick_rate : length (_tick_rate_out s') = length (_tick_rate_out s);
  frame_type : length (_type_out s') = length (_type_out s);
  frame_mtu : length (_mtu_out s') = length (_mtu_out s)
}.

(** The identities [_register_props(i, _)] registers, in order. *)
Definition chan_props (i : nat) : list prop_id :=
  [ (PROP_KEY_SCALING, out_edge i); (PROP_KEY_SAMP_RATE, out_edge i);
    (PROP_KEY_TICK_RATE, out_edge i); (PROP_KEY_TYPE, out_edge i);
    (PROP_KEY_MTU, out_edge i) ].

(** The resolvers [_register_props(i, _)] adds, in order. *)
Definition local_resolvers (ref i : nat) : list resolver_t :=
  [ {| res_inputs := [(PROP_KEY_SCALING, out_edge i)]; res_outputs := [];
       res_fn := SCALING_RESOLVER ref i |};
    {| res_inputs := [(PROP_KEY_SAMP_RATE, out_edge i)]; res_outputs := [];
       res_fn := SAMP_RATE_RESOLVER ref i |};
    {| res_inputs := [(PROP_KEY_TICK_RATE, out_edge i)]; res_outputs := [];
       res_fn := TICK_RATE_RESOLVER ref i |} ].

(** The identities of the MTU properties of [n] channels. *)
Definition mtu_ids (n : nat) : list prop_id :=
  (λ i, (PROP_KEY_MTU, out_edge i)) <$> seq 0 n.

(** The MTU resolver of channel [i] on a node of [n] channels: it reads
    [MTU[i]] and may write the MTU property of every channel. *)
Definition mtu_resolver (n i : nat) : resolver_t :=
  {| res_inputs := [(PROP_KEY_MTU, out_edge i)]; res_outputs := mtu_ids n;
     res_fn := MTU_RESOLVER i i |}.

(** The registry of a node of [n] channels. *)
Definition all_props (n : nat) : list prop_id := seq 0 n ≫= chan_props.

(** The resolvers of a node of [n] channels, in registration order. *)
Definition all_resolvers (n : nat) : list resolver_t :=
  (seq 0 n ≫= λ i, local_resolvers i i) ++ (seq 0 n ≫= λ i, [mtu_resolver n i]).

(** The object while the constructor runs: [k] channels registered and [j]
    MTU resolvers added. *)
Definition partial_node (unique_id : string) (num_chans : nat)
    (stream_args : stream_args_t) (base_mtu : N) (k j : nat) : node :=
  {| _unique_id := unique_id; _stream_args := stream_args;
     _scaling_out := (λ i, new_property PROP_KEY_SCALING (out_edge i)) <$> seq 0 k;
     _samp_rate_out := (λ i, new_property PROP_KEY_SAMP_RATE (out_edge i)) <$> seq 0 k;
     _tick_rate_out := (λ i, new_property PROP_KEY_TICK_RATE (out_edge i)) <$> seq 0 k;
     _type_out :=
       (λ i, new_property_with PROP_KEY_TYPE (otw_format stream_args) (out_edge i))
         <$> seq 0 k;
     _mtu_out := (λ i, new_property PROP_KEY_MTU (out_edge i)) <$> seq 0 k;
     _num_chans := num_chans; _mtu := base_mtu; dev_calls := []; _xports := ∅;
     _prop_fwd_policy := DROP; _action_fwd_policy := DROP;
     _props := all_props k;
     _prop_resolvers :=
       (seq 0 k ≫= λ i, local_resolvers i i) ++ (seq 0 j ≫= λ i, [mtu_resolver k i]);
     _dirty := [] |}.

(** The object the constructor returns. *)
Definition fresh_node (unique_id : string) (num_chans : nat)
    (stream_args : stream_args_t) (base_mtu : N) : node :=
  partial_node unique_id num_chans stream_args base_mtu num_chans num_chans.

(** A vector none of whose properties is valid. *)
Definition unset {T} (v : list (property_t T)) : Prop :=
  ∀ i p, v !! i = Some p → prop_data p = None.

(** What the constructor establishes and every method keeps: the registry
    and the resolvers are those of [_num_chans] channels, each vector has
    one property per channel, the MTU properties carry their identities,
    and no property awaits resolution between two calls. *)
Record wf (s : node) : Prop := {
  wf_props : _props s = all_props (_num_chans s);
  wf_resolvers : _prop_resolvers s = all_resolvers (_num_chans s);
  wf_dirty : _dirty s = [];
  wf_scaling : length (_scaling_out s) = _num_chans s;
  wf_samp_rate : length (_samp_rate_out s) = _num_chans s;
  wf_tick_rate : length (_tick_rate_out s) = _num_chans s;
  wf_type : length (_type_out s) = _num_chans s;
  wf_mtu : prop_id_of <$> _mtu_out s = mtu_ids (_num_chans s)
}.

(** The resolvers whose read set holds the property of key [k] on channel
    [c] of a node of [n] channels. *)
Definition resolvers_reading (k : prop_key) (n c : nat) : list resolver_t :=
  match k with
  | PROP_KEY_SCALING =>
      [ {| res_inputs := [(PROP_KEY_SCALING, out_edge c)]; res_outputs := [];
           res_fn := SCALING_RESOLVER c c |} ]
  | PROP_KEY_SAMP_RATE =>
      [ {| res_inputs := [(PROP_KEY_SAMP_RATE, out_edge c)]; res_outputs := [];
           res_fn := SAMP_RATE_RESOLVER c c |} ]
  | PROP_KEY_TICK_RATE =>
      [ {| res_inputs := [(PROP_KEY_TICK_RATE, out_edge c)]; res_outputs := [];
           res_fn := TICK_RATE_RESOLVER c c |} ]
  | PROP_KEY_TYPE => []
  | PROP_KEY_MTU => [mtu_resolver n c]
  end.

(** The aggregate MTU is at most the value of every valid MTU property. *)
Definition mtu_bounded (s : node) : Prop :=
  ∀ j p v, _mtu_out s !! j = Some p → prop_data p = Some v → (get_mtu s ≤ v)%N.

(** Stream arguments with the wire format [sc16]. *)
Definition sc16_args : stream_args_t := {| otw_format := "sc16"; args := [] |}.

(** A transport with the given maximum payload size. *)
Definition xport_of (payload : N) : chdr_tx_data_xport :=
  {| get_max_payload_size := payload |}.

(** A node of [n] channels, the first one built in its process, over a base
    whose aggregate starts at the largest [size_t]. *)
Definition node_of (n : nat) : node :=
  fresh_node "TxStreamer#0" n sc16_args (2 ^ 64 - 1).

(** A base-class check as the delegation expects one: every connected port
    index is below the count of ports on its side. *)
Definition port_range_check (s : node) (connected_inputs connected_outputs : list nat)
  : bool :=
  forallb (λ port, port <? get_num_input_ports s) connected_inputs
  && forallb (λ port, port <? get_num_output_ports s) connected_outputs.

(** The calls [connect_channel(c, x)] for each [(c, x)] of [calls], in
    order. *)
Definition attach (calls : list (nat * chdr_tx_data_xport)) : list op :=
  (λ call, op_connect_channel call.1 call.2) <$> calls.

(** The node after those calls. *)
Definition connect_all (rf : nat) (calls : list (nat * chdr_tx_data_xport)) (s : node)
  : node :=
  run_ops rf (attach calls) s.

(** The payload size a call supplies. *)
Definition payload (call : nat * chdr_tx_data_xport) : N := get_max_payload_size call.2.

(** [min(p_1..p_n)], for at least one call. *)
Definition min_payload (calls : list (nat * chdr_tx_data_xport)) : option N :=
  match calls with
  | [] => None
  | call :: calls' => Some (foldr (λ c, N.min (payload c)) (payload call) calls')
  end.

(** The calls made after the first one that supplies the payload size [m]. *)
Fixpoint after_first (m : N) (calls : list (nat * chdr_tx_data_xport))
  : list (nat * chdr_tx_data_xport) :=
  match calls with
  | [] => []
  | call :: calls' => if decide (payload call = m) then calls' else after_first m calls'
  end.

(** The payload size of the last of the calls [later] on channel [i], and
    [m] when none of them is on channel [i]. *)
Definition last_attached (i : nat) (m : N) (later : list (nat * chdr_tx_data_xport)) : N :=
  foldl (λ v call, if decide (call.1 = i) then payload call else v) m later.

(** The claim C1 as it is stated: after the calls the aggregate MTU is the
    least payload size and so is every channel's MTU property. *)
Definition mtu_uniform_min (rf : nat) (calls : list (nat * chdr_tx_data_xport))
    (s : node) : Prop :=
  ∀ m, min_payload calls = Some m →
    get_mtu (connect_all rf calls s) = m
    ∧ prop_data <$> _mtu_out (connect_all rf calls s)
      = replicate (get_num_channels s) (Some m).

(** The scenario of four transports on the four channels of a node. *)
Definition four_transports : list (nat * chdr_tx_data_xport) :=
  [ (0, xport_of 1500); (1, xport_of 1400); (2, xport_of 1500); (3, xport_of 1472) ].

(** ** Vocabulary of the further properties *)

(** Building one streamer after another, each with the counter the one
    before it left in [streamer_inst_ctr]; a request is the channel count,
    the stream arguments and the aggregate of the base. *)
Fixpoint build_all (ctr : N) (reqs : list (nat * stream_args_t * N)) : list node :=
  match reqs with
  | [] => []
  | req :: reqs' =>
      match rfnoc_tx_streamer ctr req.1.1 req.1.2 req.2 with
      | (Ok s, ctr') => s :: build_all ctr' reqs'
      | (Err _, ctr') => build_all ctr' reqs'
      end
  end.

(** The aggregate MTU after calls of [connect_channel] on a node of [n]
    channels that starts at [agg]: the least of [agg] and of the payload
    sizes of the calls whose channel is below [n]. *)
Definition negotiated (n : nat) (agg : N) (calls : list (nat * chdr_tx_data_xport)) : N :=
  foldl (λ a call, if bool_decide (call.1 < n) then N.min a (payload call) else a)
    agg calls.

(** The device-control calls an operation makes on a node of [n] channels:
    one for a write to a scaling, sample-rate or tick-rate property of one
    of the channels, none otherwise. *)
Definition device_calls_of (n : nat) (o : op) : list dev_call :=
  match o with
  | op_set_property k v src =>
      if bool_decide (src_type src = OUTPUT_EDGE ∧ instance src < n)
      then match k return prop_data_t k → list dev_call with
           | PROP_KEY_SCALING =>
               λ v, [set_scale_factor (instance src) (32767 / v)%float]
           | PROP_KEY_SAMP_RATE => λ v, [set_samp_rate v]
           | PROP_KEY_TICK_RATE => λ v, [set_tick_rate v]
           | PROP_KEY_TYPE | PROP_KEY_MTU => λ _, []
           end v
      else []
  | _ => []
  end.

(** Whether an operation is a write to a type property. *)
Definition writes_type (o : op) : bool :=
  match o with
  | op_set_property PROP_KEY_TYPE _ _ => true
  | _ => false
  end.


(** An operation writes, from outside, only properties of the keys
    [writable]. *)
Definition writes_allowed (writable : prop_key → bool) (o : op) : Prop :=
  match o with
  | op_set_property k _ _ => writable k = true
  | _ => True
  end.



(** Every channel's MTU property is valid and holds the aggregate MTU. *)
Definition mtu_uniform (s : node) : Prop :=
  prop_data <$> _mtu_out s = replicate (get_num_channels s) (Some (get_mtu s)).

(** ** What no method changes *)

(** Unfolding of the field updates and of the field projections, and
    nothing else. *)
Ltac node_simpl :=
  cbn [upd.scaling_out upd.samp_rate_out upd.tick_rate_out upd.type_out
       upd.mtu_out upd.mtu upd.calls upd.xports upd.prop_fwd_policy
       upd.action_fwd_policy upd.props upd.prop_resolvers upd.dirty
       _unique_id _stream_args _scaling_out _samp_rate_out _tick_rate_out
       _type_out _mtu_out _num_chans _mtu dev_calls _xports _prop_fwd_policy
       _action_fwd_policy _props _prop_resolvers _dirty
       set_mtu get_mtu mark_dirty call_device fst snd] in *.

Ltac unfold_upd_goal :=
  cbv [upd.scaling_out upd.samp_rate_out upd.tick_rate_out upd.type_out
       upd.mtu_out upd.mtu upd.calls upd.xports upd.prop_fwd_policy
       upd.action_fwd_policy upd.props upd.prop_resolvers upd.dirty
       _unique_id _stream_args _scaling_out _samp_rate_out _tick_rate_out
       _type_out _mtu_out _num_chans _mtu dev_calls _xports _prop_fwd_policy
       _action_fwd_policy _props _prop_resolvers _dirty
       new_property new_property_with get_id get_src_info
       set_mtu mark_dirty call_device].

Lemma same_frame_refl s : same_frame s s.
Proof. by split. Qed.

Lemma same_frame_trans s1 s2 s3 :
  same_frame s1 s2 → same_frame s2 s3 → same_frame s1 s3.
Proof. intros [] []; split; congruence. Qed.

Ltac frame_fields :=
  split; simpl; rewrite ?length_alter, ?length_fmap; reflexivity.

Lemma run_resolver_frame fn s : same_frame s (run_resolver fn s).
Proof.
  destruct fn; simpl; repeat case_match;
    first [ apply same_frame_refl | frame_fields ].
Qed.

Lemma invoke_frame r s : same_frame s (invoke r s).
Proof.
  unfold invoke. case_match; [apply run_resolver_frame | apply same_frame_refl].
Qed.

Lemma foldl_invoke_frame rs s : same_frame s (foldl (λ s' r, invoke r s') s rs).
Proof.
  revert s. induction rs as [|r rs IH]; intros s; simpl.
  - apply same_frame_refl.
  - eapply same_frame_trans; [apply invoke_frame | apply IH].
Qed.

Lemma run_round_frame s : same_frame s (run_round s).
Proof.
  unfold run_round.
  eapply same_frame_trans; [| apply foldl_invoke_frame]. frame_fields.
Qed.

Lemma resolve_rounds_frame rounds s : same_frame s (resolve_rounds rounds s).2.
Proof.
  revert s. induction rounds as [|n IH]; intros s; simpl.
  - destruct (_dirty s); apply same_frame_refl.
  - destruct (_dirty s); [apply same_frame_refl |].
    eapply same_frame_trans; [apply run_round_frame | apply IH].
Qed.

Lemma store_frame k v i s : same_frame s (store k v i s).
Proof. destruct k; frame_fields. Qed.

Lemma set_property_frame rf k v src s : same_frame s (set_property rf k v src s).2.
Proof.
  unfold set_property, bind, get_state, modify, throw, resolve.
  case_bool_decide; simpl; [| apply same_frame_refl].
  match goal with |- context [resolve_rounds ?n ?t] =>
    pose proof (resolve_rounds_frame n t) as Hr; destruct (resolve_rounds n t) as [[] s'] end;
    simpl in *;
    (eapply same_frame_trans; [| exact Hr]);
    (eapply same_frame_trans; [apply store_frame |]); frame_fields.
Qed.

Lemma connect_channel_frame rf channel xport s :
  same_frame s (connect_channel rf channel xport s).2.
Proof.
  unfold connect_channel, bind, get_state, UHD_ASSERT_THROW, ret, throw.
  case_bool_decide; simpl; [| apply same_frame_refl].
  pose proof (set_property_frame rf PROP_KEY_MTU (get_max_payload_size xport)
                (out_edge channel) s) as Hs.
  destruct (set_property rf PROP_KEY_MTU _ _ s) as [[] s']; simpl in *; [| exact Hs].
  eapply same_frame_trans; [exact Hs | frame_fields].
Qed.

Lemma step_frame rf o s : same_frame s (step rf o s).
Proof.
  destruct o; simpl;
    first [ apply set_property_frame | apply connect_channel_frame | apply same_frame_refl ].
Qed.

Lemma run_ops_frame rf ops s : same_frame s (run_ops rf ops s).
Proof.
  unfold run_ops. revert s. induction ops as [|o ops IH]; intros s; simpl.
  - apply same_frame_refl.
  - eapply same_frame_trans; [apply step_frame | apply IH].
Qed.

(** ** The constructor *)

Lemma bind_ok {A B} (c : M A) (k : A → M B) s a s' :
  c s = (Ok a, s') → bind c k s = k a s'.
Proof. unfold bind. by intros ->. Qed.

Lemma for_each_app {A} (xs ys : list A) (body : A → M unit) s :
  for_each (xs ++ ys) body s = bind (for_each xs body) (λ _, for_each ys body) s.
Proof.
  revert s. induction xs as [|x xs IH]; intros s; simpl; [done |].
  unfold bind in *. destruct (body x s) as [[[]|e] s']; [apply IH | done].
Qed.

Lemma for_each_snoc {A} (xs : list A) (x : A) (body : A → M unit) s s' s'' :
  for_each xs body s = (Ok tt, s') → body x s' = (Ok tt, s'') →
  for_each (xs ++ [x]) body s = (Ok tt, s'').
Proof.
  intros H1 H2. rewrite for_each_app. rewrite (bind_ok _ _ _ _ _ H1). simpl.
  rewrite (bind_ok _ _ _ _ _ H2). done.
Qed.

Lemma register_property_fresh id s :
  id ∉ _props s → register_property id s = (Ok tt, upd.props (λ l, l ++ [id]) s).
Proof.
  intros H. unfold register_property, bind, get_state.
  by rewrite bool_decide_eq_false_2.
Qed.

Lemma elem_of_all_props k src n :
  (k, src) ∈ all_props n ↔ src_type src = OUTPUT_EDGE ∧ instance src < n.
Proof.
  unfold all_props. rewrite list_elem_of_bind. split.
  - intros (i & Hin & Hi). apply elem_of_seq in Hi. unfold chan_props in Hin.
    set_unfold. destruct Hin as [H|[H|[H|[H|[H|[]]]]]]; simplify_eq; simpl; (split; [done | lia]).
  - intros [Ht Hlt]. exists (instance src). split; [| apply elem_of_seq; lia].
    destruct src as [t i]; simpl in *; subst t. unfold chan_props, out_edge.
    destruct k; set_solver.
Qed.

Lemma not_elem_of_snoc (x y : prop_id) (l : list prop_id) :
  x ∉ l → x ≠ y → x ∉ l ++ [y].
Proof.
  intros Hl Hy [Hin|Hin]%elem_of_app; [done |].
  apply list_elem_of_singleton in Hin. done.
Qed.

Lemma _register_props_fresh chan otw s :
  (∀ k, (k, out_edge chan) ∉ _props s) →
  _register_props chan otw s =
    (Ok tt,
     mk_node (_unique_id s) (_stream_args s)
       (_scaling_out s ++ [new_property PROP_KEY_SCALING (out_edge chan)])
       (_samp_rate_out s ++ [new_property PROP_KEY_SAMP_RATE (out_edge chan)])
       (_tick_rate_out s ++ [new_property PROP_KEY_TICK_RATE (out_edge chan)])
       (_type_out s ++ [new_property_with PROP_KEY_TYPE otw (out_edge chan)])
       (_mtu_out s ++ [new_property PROP_KEY_MTU (out_edge chan)])
       (_num_chans s) (_mtu s) (dev_calls s) (_xports s)
       (_prop_fwd_policy s) (_action_fwd_policy s)
       (_props s ++ chan_props chan)
       (_prop_resolvers s ++
          [ {| res_inputs := [(PROP_KEY_SCALING, out_edge chan)]; res_outputs := [];
               res_fn := SCALING_RESOLVER (length (_scaling_out s)) chan |};
            {| res_inputs := [(PROP_KEY_SAMP_RATE, out_edge chan)]; res_outputs := [];
               res_fn := SAMP_RATE_RESOLVER (length (_samp_rate_out s)) chan |};
            {| res_inputs := [(PROP_KEY_TICK_RATE, out_edge chan)]; res_outputs := [];
               res_fn := TICK_RATE_RESOLVER (length (_tick_rate_out s)) chan |} ])
       (_dirty s)).
Proof.
  intros Hfresh. unfold _register_props.
  unfold bind at 1. unfold get_state.
  repeat (unfold bind at 1; unfold modify at 1).
  do 5 (erewrite bind_ok;
    [| apply register_property_fresh;
       cbn [_props upd.props upd.mtu_out upd.type_out upd.tick_rate_out
            upd.samp_rate_out upd.scaling_out];
       repeat (apply not_elem_of_snoc; [| done]); apply Hfresh ]).
  unfold bind, add_property_resolver, modify, prop_id_of.
  destruct s. unfold_upd_goal. rewrite <- ?app_assoc. reflexivity.
Qed.

Lemma register_loop unique_id n stream_args base_mtu k :
  for_each (seq 0 k) (λ i, _register_props i (otw_format stream_args))
    (partial_node unique_id n stream_args base_mtu 0 0)
  = (Ok tt, partial_node unique_id n stream_args base_mtu k 0).
Proof.
  induction k as [|k IH]; [reflexivity |].
  rewrite seq_S. cbn [Nat.add]. eapply for_each_snoc; [exact IH |].
  rewrite _register_props_fresh.
  - unfold partial_node, all_props. node_simpl.
    rewrite !length_fmap, !length_seq, !seq_S, !fmap_app, !bind_app.
    cbn [Nat.add fmap list_fmap mbind list_bind app].
    rewrite !app_nil_r. reflexivity.
  - intros key Hin. unfold partial_node in Hin. node_simpl.
    apply elem_of_all_props in Hin as [_ Hin]. cbn [out_edge instance] in Hin. lia.
Qed.

Lemma mtu_resolver_loop unique_id n stream_args base_mtu j :
  j ≤ n →
  for_each (seq 0 j)
    (λ i, let* s := get_state in
          let mtu_resolver_out := prop_id_of <$> _mtu_out s in
          match _mtu_out s !! i with
          | Some mtu_out =>
              add_property_resolver [prop_id_of mtu_out] mtu_resolver_out
                (MTU_RESOLVER i i)
          | None => throw OutOfRange
          end)%M
    (partial_node unique_id n stream_args base_mtu n 0)
  = (Ok tt, partial_node unique_id n stream_args base_mtu n j).
Proof.
  induction j as [|j IH]; intros Hj; [reflexivity |].
  rewrite seq_S. cbn [Nat.add]. eapply for_each_snoc; [apply IH; lia |].
  unfold bind, get_state, partial_node. node_simpl.
  rewrite list_lookup_fmap, lookup_seq_lt by lia. cbn [fmap option_fmap option_map Nat.add].
  unfold add_property_resolver, modify. unfold_upd_goal.
  rewrite <- list_fmap_compose, !seq_S, !bind_app.
  cbn [Nat.add mbind list_bind app].
  rewrite ?app_nil_r, <- ?app_assoc. reflexivity.
Qed.

Lemma unset_new {T} (f : nat → property_t T) n :
  (∀ i, prop_data (f i) = None) → unset (f <$> seq 0 n).
Proof.
  intros Hf i p Hp. rewrite list_lookup_fmap in Hp.
  destruct (seq 0 n !! i); simplify_eq/=. apply Hf.
Qed.

Lemma run_resolver_unset fn s :
  unset (_scaling_out s) → unset (_samp_rate_out s) → unset (_tick_rate_out s) →
  unset (_mtu_out s) → run_resolver fn s = s.
Proof.
  intros H1 H2 H3 H4. destruct fn; simpl.
  - destruct (_scaling_out s !! ref) eqn:E; [| done]. by rewrite (H1 _ _ E).
  - destruct (_samp_rate_out s !! ref) eqn:E; [| done]. by rewrite (H2 _ _ E).
  - destruct (_tick_rate_out s !! ref) eqn:E; [| done]. by rewrite (H3 _ _ E).
  - destruct (_mtu_out s !! ref) eqn:E; [| done]. by rewrite (H4 _ _ E).
Qed.

Lemma foldl_invoke_id rs s :
  (∀ r, r ∈ rs → invoke r s = s) → foldl (λ s' r, invoke r s') s rs = s.
Proof.
  induction rs as [|r rs IH]; intros H; simpl; [done |].
  rewrite H by left. apply IH. intros r' Hr'. apply H. by right.
Qed.

Lemma init_props_fresh unique_id n stream_args base_mtu :
  init_props (fresh_node unique_id n stream_args base_mtu)
  = (Ok tt, fresh_node unique_id n stream_args base_mtu).
Proof.
  unfold init_props, modify. f_equal.
  rewrite foldl_invoke_id; [done |].
  intros r _. unfold invoke. case_match; [| done].
  apply run_resolver_unset; simpl; by apply unset_new.
Qed.

Lemma ctor_body_fresh unique_id n stream_args base_mtu :
  ctor_body n stream_args (initial_node unique_id n stream_args base_mtu)
  = (Ok tt, fresh_node unique_id n stream_args base_mtu).
Proof.
  unfold ctor_body.
  unfold bind at 1, set_prop_forwarding_policy, modify.
  unfold bind at 1, set_action_forwarding_policy, modify.
  change (upd.action_fwd_policy DROP (upd.prop_fwd_policy DROP
            (initial_node unique_id n stream_args base_mtu)))
    with (partial_node unique_id n stream_args base_mtu 0 0).
  rewrite (bind_ok _ _ _ _ _ (register_loop unique_id n stream_args base_mtu n)).
  rewrite (bind_ok _ _ _ _ _
             (mtu_resolver_loop unique_id n stream_args base_mtu n (le_n n))).
  apply init_props_fresh.
Qed.

Lemma rfnoc_tx_streamer_fresh ctr n stream_args base_mtu :
  rfnoc_tx_streamer ctr n stream_args base_mtu
  = (Ok (fresh_node (STREAMER_ID +:+ "#" +:+ pretty ctr) n stream_args base_mtu),
     next_ctr ctr).
Proof. unfold rfnoc_tx_streamer. by rewrite ctor_body_fresh. Qed.

(** ** Well-formed nodes *)

Lemma wf_mtu_length s : wf s → length (_mtu_out s) = _num_chans s.
Proof.
  intros Hwf. rewrite <- (length_fmap prop_id_of), (wf_mtu _ Hwf).
  unfold mtu_ids. by rewrite length_fmap, length_seq.
Qed.

Lemma fresh_node_wf unique_id n stream_args base_mtu :
  wf (fresh_node unique_id n stream_args base_mtu).
Proof.
  split; simpl; rewrite ?length_fmap, ?length_seq; try done.
  by rewrite <- list_fmap_compose.
Qed.

(** ** Which resolvers a round selects *)

Arguments intersects : simpl never.

Lemma intersects_single (a b : prop_id) : intersects [a] [b] = bool_decide (a = b).
Proof.
  unfold intersects. cbn [existsb]. rewrite orb_false_r.
  apply bool_decide_ext, list_elem_of_singleton.
Qed.

Lemma filter_bind {A B} (P : B → bool) (g : A → list B) (l : list A) :
  List.filter P (l ≫= g) = l ≫= (λ i, List.filter P (g i)).
Proof.
  induction l as [|x l IH]; [done |].
  change ((x :: l) ≫= g) with (g x ++ (l ≫= g)).
  rewrite List.filter_app, IH. done.
Qed.

Lemma bind_seq_nil {B} (g : nat → list B) a k :
  (∀ i, g i = []) → seq a k ≫= g = [].
Proof.
  intros Hg. revert a. induction k as [|k IH]; intros a; [done |].
  change (seq a (S k) ≫= g) with (g a ++ (seq (S a) k ≫= g)).
  by rewrite Hg, IH.
Qed.

Lemma bind_seq_nil_above {B} (g : nat → list B) c a k :
  (∀ i, c < i → g i = []) → c < a → seq a k ≫= g = [].
Proof.
  intros Hg. revert a. induction k as [|k IH]; intros a Ha; [done |].
  change (seq a (S k) ≫= g) with (g a ++ (seq (S a) k ≫= g)).
  rewrite Hg by lia. simpl. apply IH. lia.
Qed.

Lemma bind_seq_single {B} (g : nat → list B) c a k :
  (∀ i, i ≠ c → g i = []) → a ≤ c < a + k → seq a k ≫= g = g c.
Proof.
  intros Hg. revert a. induction k as [|k IH]; intros a Hc; [lia |].
  change (seq a (S k) ≫= g) with (g a ++ (seq (S a) k ≫= g)).
  destruct (decide (a = c)) as [->|Hne].
  - rewrite (bind_seq_nil_above g c (S c) k); [| intros; apply Hg; lia | lia].
    by rewrite app_nil_r.
  - rewrite Hg by done. simpl. apply IH. lia.
Qed.

Lemma select_single k n c :
  c < n →
  List.filter (λ r, intersects (res_inputs r) [(k, out_edge c)]) (all_resolvers n)
  = resolvers_reading k n c.
Proof.
  intros Hc. unfold all_resolvers. rewrite List.filter_app, !filter_bind.
  rewrite (bind_seq_single _ c 0 n), (bind_seq_single _ c 0 n); try lia.
  - simpl. rewrite !intersects_single.
    destruct k; simpl;
      repeat first [ rewrite bool_decide_eq_true_2 by done
                   | rewrite bool_decide_eq_false_2 by done ]; done.
  - intros i Hi. simpl. rewrite intersects_single.
    rewrite bool_decide_eq_false_2; [done |]. intros [= _ ?]. done.
  - intros i Hi. simpl. rewrite !intersects_single.
    rewrite !bool_decide_eq_false_2; [done | | |]; intros [= _ ?]; done.
Qed.

(** A resolver selected because some MTU property is dirty is an MTU
    resolver. *)
Lemma select_mtu_ids n r :
  r ∈ List.filter (λ r, intersects (res_inputs r) (mtu_ids n)) (all_resolvers n) →
  ∃ i, r = mtu_resolver n i.
Proof.
  intros Hr. apply list_elem_of_In, List.filter_In in Hr as [Hin Hsel].
  apply list_elem_of_In in Hin. unfold all_resolvers in Hin.
  apply elem_of_app in Hin as [Hin|Hin]; apply list_elem_of_bind in Hin as (i & Hin & _).
  - exfalso. unfold intersects in Hsel. apply existsb_exists in Hsel as (x & Hx & Hm).
    apply bool_decide_eq_true in Hm. unfold mtu_ids in Hm.
    apply list_elem_of_fmap in Hm as (j & -> & _).
    unfold local_resolvers in Hin. set_unfold.
    destruct Hin as [->|[->|[->|[]]]]; simpl in Hx; destruct Hx as [Hx|[]]; done.
  - exists i. set_unfold. by destruct Hin as [->|[]].
Qed.

(** ** What [set_property] does on a well-formed node *)

Lemma length_bind_seq {B} (g : nat → list B) m a k :
  (∀ i, length (g i) = m) → length (seq a k ≫= g) = k * m.
Proof.
  intros Hg. revert a. induction k as [|k IH]; intros a; [done |].
  change (seq a (S k) ≫= g) with (g a ++ (seq (S a) k ≫= g)).
  rewrite length_app, Hg, IH. lia.
Qed.

Lemma length_all_resolvers n : length (all_resolvers n) = 4 * n.
Proof.
  unfold all_resolvers.
  rewrite length_app, (length_bind_seq _ 3), (length_bind_seq _ 1) by done. lia.
Qed.

Lemma two_rounds rf n c :
  1 ≤ rf → c < n → ∃ f, rf * length (all_resolvers n) = S (S f).
Proof.
  intros Hrf Hc. rewrite length_all_resolvers.
  exists (rf * (4 * n) - 2). nia.
Qed.

Lemma resolve_rounds_clean rounds s : _dirty s = [] → resolve_rounds rounds s = (Ok tt, s).
Proof. intros H. destruct rounds; simpl; by rewrite H. Qed.

Lemma resolve_rounds_step f s :
  _dirty s ≠ [] → resolve_rounds (S f) s = resolve_rounds f (run_round s).
Proof. intros H. simpl. by destruct (_dirty s). Qed.

Lemma clear_mark_dirty ids s :
  _dirty s = [] → upd.dirty (λ _, []) (mark_dirty ids s) = s.
Proof. destruct s; simpl. by intros ->. Qed.

Lemma store_dirty k v i s : _dirty (store k v i s) = _dirty s.
Proof. by destruct k. Qed.

Lemma set_property_unregistered rf k v src s :
  wf s → ¬ (src_type src = OUTPUT_EDGE ∧ instance src < _num_chans s) →
  set_property rf k v src s = (Err OutOfRange, s).
Proof.
  intros Hwf Hsrc. unfold set_property, bind, get_state.
  rewrite (wf_props _ Hwf), bool_decide_eq_false_2; [done |].
  by rewrite elem_of_all_props.
Qed.

(** The first round after a write to the property of key [k] on channel
    [c] invokes the resolvers that read it, and the engine goes on from
    there. *)
Lemma set_property_registered rf k v c s :
  wf s → 1 ≤ rf → c < _num_chans s →
  ∃ f, set_property rf k v (out_edge c) s =
       resolve_rounds (S f)
         (foldl (λ s' r, invoke r s') (store k v c s)
            (resolvers_reading k (_num_chans s) c)).
Proof.
  intros Hwf Hrf Hc. unfold set_property, bind, get_state.
  rewrite (wf_props _ Hwf), bool_decide_eq_true_2
    by (apply elem_of_all_props; simpl; done).
  unfold modify, resolve. cbn [instance out_edge]. fold (out_edge c).
  set (s1 := mark_dirty [(k, out_edge c)] (store k v c s)).
  assert (_prop_resolvers s1 = all_resolvers (_num_chans s)) as Hres.
  { subst s1. node_simpl. rewrite <- (wf_resolvers _ Hwf).
    apply (frame_resolvers _ _ (store_frame k v c s)). }
  assert (_dirty s1 = [(k, out_edge c)]) as Hd.
  { subst s1. node_simpl. by rewrite store_dirty, (wf_dirty _ Hwf). }
  rewrite Hres. destruct (two_rounds rf (_num_chans s) c Hrf Hc) as [f ->].
  exists f. rewrite resolve_rounds_step by (by rewrite Hd).
  f_equal. unfold run_round. rewrite Hres, Hd, select_single by done.
  subst s1. rewrite clear_mark_dirty; [done |].
  by rewrite store_dirty, (wf_dirty _ Hwf).
Qed.

Lemma valid_at_alter {T} (v : T) (l : list (property_t T)) c :
  c < length l → valid_at (alter (prop_set v) c l) c = true.
Proof.
  intros Hc. unfold valid_at. rewrite list_lookup_alter_eq.
  destruct (lookup_lt_is_Some_2 l c Hc) as [p ->]. done.
Qed.

Lemma lookup_alter_set {T} (v : T) (l : list (property_t T)) c :
  c < length l → ∃ p, alter (prop_set v) c l !! c = Some (prop_set v p).
Proof.
  intros Hc. rewrite list_lookup_alter_eq.
  destruct (lookup_lt_is_Some_2 l c Hc) as [p ->]. by exists p.
Qed.

(** The write of a scaling, sample-rate or tick-rate property: one round,
    in which the resolver of that channel is invoked on a valid input. *)
Ltac local_round Hwf len :=
  cbn [resolvers_reading foldl]; unfold invoke, mtu_resolver;
  cbn [res_inputs res_fn existsb prop_is_valid fst snd out_edge src_type instance store];
  node_simpl;
  rewrite valid_at_alter by (rewrite len; assumption);
  cbn [orb run_resolver prop_data_t]; node_simpl;
  match goal with
  | |- context [alter (prop_set ?v) ?c ?l !! ?c] =>
      destruct (lookup_alter_set v l c) as [? ->]; [rewrite len; assumption |]
  end;
  cbn [prop_set prop_data].

Lemma set_property_scaling rf (v : float) c s :
  wf s → 1 ≤ rf → c < _num_chans s →
  set_property rf PROP_KEY_SCALING v (out_edge c) s =
    (Ok tt, call_device (set_scale_factor c (32767 / v)%float)
              (store PROP_KEY_SCALING v c s)).
Proof.
  intros Hwf Hrf Hc.
  destruct (set_property_registered rf PROP_KEY_SCALING v c s Hwf Hrf Hc) as [f ->].
  local_round Hwf (wf_scaling _ Hwf).
  apply resolve_rounds_clean. apply (wf_dirty _ Hwf).
Qed.

Lemma set_property_samp_rate rf (v : float) c s :
  wf s → 1 ≤ rf → c < _num_chans s →
  set_property rf PROP_KEY_SAMP_RATE v (out_edge c) s =
    (Ok tt, call_device (set_samp_rate v) (store PROP_KEY_SAMP_RATE v c s)).
Proof.
  intros Hwf Hrf Hc.
  destruct (set_property_registered rf PROP_KEY_SAMP_RATE v c s Hwf Hrf Hc) as [f ->].
  local_round Hwf (wf_samp_rate _ Hwf).
  apply resolve_rounds_clean. apply (wf_dirty _ Hwf).
Qed.

Lemma set_property_tick_rate rf (v : float) c s :
  wf s → 1 ≤ rf → c < _num_chans s →
  set_property rf PROP_KEY_TICK_RATE v (out_edge c) s =
    (Ok tt, call_device (set_tick_rate v) (store PROP_KEY_TICK_RATE v c s)).
Proof.
  intros Hwf Hrf Hc.
  destruct (set_property_registered rf PROP_KEY_TICK_RATE v c s Hwf Hrf Hc) as [f ->].
  local_round Hwf (wf_tick_rate _ Hwf).
  apply resolve_rounds_clean. apply (wf_dirty _ Hwf).
Qed.

Lemma set_property_type rf (v : string) c s :
  wf s → 1 ≤ rf → c < _num_chans s →
  set_property rf PROP_KEY_TYPE v (out_edge c) s = (Ok tt, store PROP_KEY_TYPE v c s).
Proof.
  intros Hwf Hrf Hc.
  destruct (set_property_registered rf PROP_KEY_TYPE v c s Hwf Hrf Hc) as [f ->].
  apply resolve_rounds_clean. apply (wf_dirty _ Hwf).
Qed.

(** On such a node an MTU resolver changes nothing. *)
Lemma run_mtu_resolver_bounded ref i s :
  mtu_bounded s → run_resolver (MTU_RESOLVER ref i) s = s.
Proof.
  intros Hb. simpl. destruct (_mtu_out s !! ref) as [p|] eqn:Hp; [| done].
  destruct (prop_data p) as [v|] eqn:Hv; [| done].
  specialize (Hb _ _ _ Hp Hv). by rewrite (proj2 (N.ltb_ge _ _) Hb).
Qed.

Lemma invoke_mtu_bounded n i s : mtu_bounded s → invoke (mtu_resolver n i) s = s.
Proof.
  intros Hb. unfold invoke. case_match; [| done]. by apply run_mtu_resolver_bounded.
Qed.

Lemma prop_id_of_alter {T} (v : T) c (l : list (property_t T)) :
  prop_id_of <$> alter (prop_set v) c l = prop_id_of <$> l.
Proof.
  apply list_eq. intros j. rewrite !list_lookup_fmap.
  destruct (decide (c = j)) as [->|Hne].
  - rewrite list_lookup_alter_eq. by destruct (l !! j).
  - by rewrite list_lookup_alter_ne.
Qed.

Lemma prop_id_of_set_all {T} (v : T) (l : list (property_t T)) :
  prop_id_of <$> (prop_set v <$> l) = prop_id_of <$> l.
Proof. rewrite <- list_fmap_compose. by apply list_fmap_ext. Qed.

Lemma set_all_alter {T} (v : T) c (l : list (property_t T)) :
  prop_set v <$> alter (prop_set v) c l = prop_set v <$> l.
Proof.
  apply list_eq. intros j. rewrite !list_lookup_fmap.
  destruct (decide (c = j)) as [->|Hne].
  - rewrite list_lookup_alter_eq. by destruct (l !! j).
  - by rewrite list_lookup_alter_ne.
Qed.

Lemma mtu_ids_nonempty n c : c < n → mtu_ids n ≠ [].
Proof. intros Hc. destruct n; [lia | done]. Qed.

(** A payload size at or above the aggregate only lands in its own
    property. *)
Lemma set_property_mtu_ge rf (m : N) c s :
  wf s → 1 ≤ rf → c < _num_chans s → (get_mtu s ≤ m)%N →
  set_property rf PROP_KEY_MTU m (out_edge c) s = (Ok tt, store PROP_KEY_MTU m c s).
Proof.
  intros Hwf Hrf Hc Hm.
  destruct (set_property_registered rf PROP_KEY_MTU m c s Hwf Hrf Hc) as [f ->].
  local_round Hwf (wf_mtu_length _ Hwf). unfold get_mtu in *. node_simpl.
  rewrite (proj2 (N.ltb_ge _ _) Hm).
  apply resolve_rounds_clean. apply (wf_dirty _ Hwf).
Qed.

(** A payload size below the aggregate becomes the aggregate and the value
    of every MTU property. *)
Lemma set_property_mtu_lt rf (m : N) c s :
  wf s → 1 ≤ rf → c < _num_chans s → (m < get_mtu s)%N →
  set_property rf PROP_KEY_MTU m (out_edge c) s =
    (Ok tt, set_mtu m (upd.mtu_out (fmap (prop_set m)) s)).
Proof.
  intros Hwf Hrf Hc Hm.
  destruct (set_property_registered rf PROP_KEY_MTU m c s Hwf Hrf Hc) as [f ->].
  local_round Hwf (wf_mtu_length _ Hwf). unfold get_mtu in *. node_simpl.
  rewrite (proj2 (N.ltb_lt _ _) Hm).
  set (s1 := set_mtu m (set_all_mtu_out m (upd.mtu_out (alter (prop_set m) c) s))).
  assert (_dirty s1 = mtu_ids (_num_chans s)) as Hd.
  { subst s1. unfold set_all_mtu_out. node_simpl.
    by rewrite (wf_dirty _ Hwf), prop_id_of_alter, (wf_mtu _ Hwf). }
  assert (_prop_resolvers s1 = all_resolvers (_num_chans s)) as Hres.
  { subst s1. unfold set_all_mtu_out. node_simpl. apply (wf_resolvers _ Hwf). }
  assert (upd.dirty (λ _, []) s1 = set_mtu m (upd.mtu_out (fmap (prop_set m)) s)) as Hs1.
  { pose proof (wf_dirty _ Hwf) as Hd0. subst s1. clear -Hd0.
    unfold set_all_mtu_out. destruct s. cbn [_dirty] in Hd0. subst.
    unfold_upd_goal. by rewrite set_all_alter. }
  rewrite resolve_rounds_step by (rewrite Hd; by apply (mtu_ids_nonempty _ c)).
  unfold run_round. rewrite Hd, Hres, Hs1.
  rewrite foldl_invoke_id.
  - apply resolve_rounds_clean. node_simpl. apply (wf_dirty _ Hwf).
  - intros r Hr. apply select_mtu_ids in Hr as [i ->].
    apply invoke_mtu_bounded. intros j q v Hq Hv. node_simpl.
    rewrite list_lookup_fmap in Hq.
    destruct (_mtu_out s !! j); simplify_eq/=. done.
Qed.

(** ** Invariants of the methods *)

Lemma wf_frame s s' :
  same_frame s s' → wf s → _dirty s' = [] →
  prop_id_of <$> _mtu_out s' = prop_id_of <$> _mtu_out s → wf s'.
Proof.
  intros [] [] Hd Hm. split; congruence.
Qed.

Lemma store_mtu_ids k v c s :
  prop_id_of <$> _mtu_out (store k v c s) = prop_id_of <$> _mtu_out s.
Proof. destruct k; simpl; try done. apply prop_id_of_alter. Qed.

Lemma store_wf k v c s : wf s → wf (store k v c s).
Proof.
  intros Hwf. eapply wf_frame; [apply store_frame | done | |].
  - rewrite store_dirty. apply (wf_dirty _ Hwf).
  - apply store_mtu_ids.
Qed.

Lemma call_device_wf call s : wf s → wf (call_device call s).
Proof. intros []. by split. Qed.

Lemma set_all_wf m s : wf s → wf (set_mtu m (upd.mtu_out (fmap (prop_set m)) s)).
Proof.
  intros Hwf. eapply wf_frame; [| done | |].
  - frame_fields.
  - apply (wf_dirty _ Hwf).
  - simpl. apply prop_id_of_set_all.
Qed.

Lemma store_mtu_bounded_other k v c s :
  k ≠ PROP_KEY_MTU → mtu_bounded s → mtu_bounded (store k v c s).
Proof. by destruct k. Qed.

Lemma store_mtu_bounded (m : N) c s :
  (get_mtu s ≤ m)%N → mtu_bounded s → mtu_bounded (store PROP_KEY_MTU m c s).
Proof.
  intros Hm Hb j p v Hp Hv. simpl in *.
  destruct (decide (c = j)) as [->|Hne].
  - rewrite list_lookup_alter_eq in Hp.
    destruct (_mtu_out s !! j); simplify_eq/=. done.
  - rewrite list_lookup_alter_ne in Hp by done. by eapply Hb.
Qed.

Lemma set_all_mtu_bounded m s : mtu_bounded (set_mtu m (upd.mtu_out (fmap (prop_set m)) s)).
Proof.
  intros j p v Hp Hv. simpl in *. rewrite list_lookup_fmap in Hp.
  destruct (_mtu_out s !! j); simplify_eq/=. done.
Qed.

(** The edge of a registered property names a channel of the node. *)
Lemma registered_edge src n :
  src_type src = OUTPUT_EDGE ∧ instance src < n → ∃ c, src = out_edge c ∧ c < n.
Proof. destruct src as [t i]; simpl. intros [-> Hi]. by exists i. Qed.

Lemma set_property_keeps rf k v src s :
  1 ≤ rf → wf s → mtu_bounded s →
  wf (set_property rf k v src s).2 ∧ mtu_bounded (set_property rf k v src s).2.
Proof.
  intros Hrf Hwf Hb.
  destruct (decide (src_type src = OUTPUT_EDGE ∧ instance src < _num_chans s)) as [Hsrc|Hsrc].
  2:{ by rewrite set_property_unregistered. }
  apply registered_edge in Hsrc as (c & -> & Hc). destruct k.
  - rewrite set_property_scaling by done. simpl.
    split; [by apply call_device_wf, (store_wf PROP_KEY_SCALING) | done].
  - rewrite set_property_samp_rate by done. simpl.
    split; [by apply call_device_wf, (store_wf PROP_KEY_SAMP_RATE) | done].
  - rewrite set_property_tick_rate by done. simpl.
    split; [by apply call_device_wf, (store_wf PROP_KEY_TICK_RATE) | done].
  - rewrite set_property_type by done. simpl.
    split; [by apply (store_wf PROP_KEY_TYPE) | done].
  - destruct (N.lt_ge_cases v (get_mtu s)) as [Hlt|Hge].
    + rewrite set_property_mtu_lt by done. simpl.
      split; [by apply set_all_wf | apply set_all_mtu_bounded].
    + rewrite set_property_mtu_ge by done. simpl.
      split; [by apply (store_wf PROP_KEY_MTU) | by apply store_mtu_bounded].
Qed.

(** *** [connect_channel] *)

Lemma connect_channel_out_of_range rf channel xport s :
  length (_mtu_out s) ≤ channel →
  connect_channel rf channel xport s = (Err OutOfRange, s).
Proof.
  intros Hc. unfold connect_channel, bind, get_state, UHD_ASSERT_THROW.
  rewrite bool_decide_eq_false_2 by lia. done.
Qed.

Lemma connect_channel_in_range rf channel xport s :
  channel < length (_mtu_out s) →
  connect_channel rf channel xport s =
    match set_property rf PROP_KEY_MTU (get_max_payload_size xport) (out_edge channel) s with
    | (Ok _, s') => (Ok tt, upd.xports (<[channel := xport]>) s')
    | (Err e, s') => (Err e, s')
    end.
Proof.
  intros Hc. unfold connect_channel, bind, get_state, UHD_ASSERT_THROW.
  rewrite bool_decide_eq_true_2 by lia. simpl.
  by destruct (set_property rf PROP_KEY_MTU _ _ s) as [[[]|e] s'].
Qed.

Lemma connect_channel_lt rf c xport s :
  wf s → 1 ≤ rf → c < _num_chans s → (get_max_payload_size xport < get_mtu s)%N →
  connect_channel rf c xport s =
    (Ok tt, upd.xports (<[c := xport]>)
              (set_mtu (get_max_payload_size xport)
                 (upd.mtu_out (fmap (prop_set (get_max_payload_size xport))) s))).
Proof.
  intros Hwf Hrf Hc Hm.
  rewrite connect_channel_in_range by (by rewrite wf_mtu_length).
  by rewrite set_property_mtu_lt.
Qed.

Lemma connect_channel_ge rf c xport s :
  wf s → 1 ≤ rf → c < _num_chans s → (get_mtu s ≤ get_max_payload_size xport)%N →
  connect_channel rf c xport s =
    (Ok tt, upd.xports (<[c := xport]>)
              (store PROP_KEY_MTU (get_max_payload_size xport) c s)).
Proof.
  intros Hwf Hrf Hc Hm.
  rewrite connect_channel_in_range by (by rewrite wf_mtu_length).
  by rewrite set_property_mtu_ge.
Qed.

Lemma xports_wf f s : wf s → wf (upd.xports f s).
Proof. intros []. by split. Qed.

Lemma connect_channel_keeps rf c xport s :
  1 ≤ rf → wf s → mtu_bounded s →
  wf (connect_channel rf c xport s).2 ∧ mtu_bounded (connect_channel rf c xport s).2.
Proof.
  intros Hrf Hwf Hb.
  destruct (decide (c < length (_mtu_out s))) as [Hc|Hc].
  2:{ rewrite connect_channel_out_of_range by lia. done. }
  rewrite connect_channel_in_range by done.
  destruct (set_property_keeps rf PROP_KEY_MTU (get_max_payload_size xport)
              (out_edge c) s Hrf Hwf Hb) as [Hwf' Hb'].
  destruct (set_property rf PROP_KEY_MTU _ _ s) as [[[]|e] s']; simpl in *; [| done].
  split; [by apply xports_wf | done].
Qed.

Lemma step_keeps rf o s :
  1 ≤ rf → wf s → mtu_bounded s → wf (step rf o s) ∧ mtu_bounded (step rf o s).
Proof.
  intros Hrf Hwf Hb. destruct o; simpl; try done.
  - by apply set_property_keeps.
  - by apply connect_channel_keeps.
Qed.

Lemma fresh_node_mtu_bounded unique_id n stream_args base_mtu :
  mtu_bounded (fresh_node unique_id n stream_args base_mtu).
Proof.
  intros j p v Hp Hv. simpl in Hp. rewrite list_lookup_fmap in Hp.
  destruct (seq 0 n !! j); simplify_eq/=.
Qed.

Lemma reachable_keeps rf s :
  1 ≤ rf → reachable rf s → wf s ∧ mtu_bounded s.
Proof.
  intros Hrf Hs. induction Hs as [ctr n sa m0 s ctr' Hnew | o s Hs [IHwf IHb]].
  - rewrite rfnoc_tx_streamer_fresh in Hnew. simplify_eq.
    split; [apply fresh_node_wf | apply fresh_node_mtu_bounded].
  - by apply step_keeps.
Qed.

Lemma reachable_sizes rf s :
  reachable rf s → length (_mtu_out s) = _num_chans s.
Proof.
  intros Hs. induction Hs as [ctr n sa m0 s ctr' Hnew | o s Hs IH].
  - rewrite rfnoc_tx_streamer_fresh in Hnew. simplify_eq.
    simpl. by rewrite length_fmap, length_seq.
  - pose proof (step_frame rf o s) as []. congruence.
Qed.

Lemma reachable_run_ops rf ops s : reachable rf s → reachable rf (run_ops rf ops s).
Proof.
  unfold run_ops. revert s. induction ops as [|o ops IH]; intros s Hs; simpl; [done |].
  apply IH. by apply reachable_step.
Qed.

(** ** Examples of construction *)

Example seventh_streamer :
  ∃ s, rfnoc_tx_streamer 7 2 sc16_args (2 ^ 64 - 1) = (Ok s, 8%N)
       ∧ get_unique_id s = "TxStreamer#7"
       ∧ get_num_output_ports s = 2
       ∧ length (_prop_resolvers s) = 8.
Proof. eexists. split; [vm_compute; reflexivity |]. vm_compute. done. Qed.

Example next_ctr_wraps : next_ctr (2 ^ 64 - 1) = 0%N.
Proof. reflexivity. Qed.

Example check_topology_sizes :
  check_topology port_range_check [] [] (node_of 4) = false
  ∧ check_topology port_range_check [] [0; 1; 2; 3; 4] (node_of 4) = false
  ∧ check_topology port_range_check [] [0; 1; 2; 3] (node_of 4) = true
  ∧ check_topology port_range_check [] [0; 1; 2; 9] (node_of 4) = false
  ∧ check_topology port_range_check [0] [0; 1; 2; 3] (node_of 4) = false.
Proof. vm_compute. done. Qed.

(** ** The MTU resolver *)

(** C2. When the MTU resolver of channel [i] runs on a valid [MTU[i] = m]:
    if [m] is below the aggregate MTU, every channel's MTU property holds
    [m] afterwards and the aggregate is [m]; if [m] is at or above the
    aggregate, the node is left as it was. *)
Theorem mtu_resolver_smaller_wins i s p m :
  _mtu_out s !! i = Some p → prop_data p = Some m →
  ((m < get_mtu s)%N →
     get_mtu (run_resolver (MTU_RESOLVER i i) s) = m
     ∧ _mtu_out (run_resolver (MTU_RESOLVER i i) s) = prop_set m <$> _mtu_out s
     ∧ (∀ j, j < length (_mtu_out s) →
          ∃ q, _mtu_out (run_resolver (MTU_RESOLVER i i) s) !! j = Some q
               ∧ prop_data q = Some m))
  ∧ ((get_mtu s ≤ m)%N → run_resolver (MTU_RESOLVER i i) s = s).
Proof.
  intros Hp Hm. cbn [run_resolver]. rewrite Hp, Hm. split.
  - intros Hlt. rewrite (proj2 (N.ltb_lt _ _) Hlt).
    unfold set_all_mtu_out. node_simpl. split; [done |]. split; [done |].
    intros j Hj. destruct (lookup_lt_is_Some_2 _ _ Hj) as [q Hq].
    exists (prop_set m q). by rewrite list_lookup_fmap, Hq.
  - intros Hge. by rewrite (proj2 (N.ltb_ge _ _) Hge).
Qed.

Lemma mtu_resolver_smaller_wins_witness :
  get_mtu (run_resolver (MTU_RESOLVER 1 1)
             (store PROP_KEY_MTU 1400%N 1 (node_of 4))) = 1400%N.
Proof.
  refine (proj1 (proj1 (mtu_resolver_smaller_wins 1
            (store PROP_KEY_MTU 1400%N 1 (node_of 4))
            (mk_property PROP_KEY_MTU (out_edge 1) (Some 1400%N)) 1400%N _ _) _)).
  - reflexivity.
  - reflexivity.
  - vm_compute. reflexivity.
Defined.

(** ** Topology *)

(** C3, as the code has it.  [check_topology] returns true exactly when the
    number of connected outputs is the channel count and the check of the
    base class accepts the connections; whenever the sizes differ, 0 and
    [channel_count + 1] included, it returns false. *)
Theorem check_topology_iff (base : node → list nat → list nat → bool)
    connected_inputs connected_outputs s :
  check_topology base connected_inputs connected_outputs s = true
  ↔ length connected_outputs = get_num_output_ports s
    ∧ base s connected_inputs connected_outputs = true.
Proof.
  unfold check_topology.
  destruct (length connected_outputs =? get_num_output_ports s) eqn:E; cbn [negb].
  - apply Nat.eqb_eq in E. split; [intros Hb; by split | by intros [_ Hb]].
  - apply Nat.eqb_neq in E. split; [done | by intros [Hl _]].
Qed.

(** C3, as stated, fails: four connected outputs on a node of four channels
    are not enough when the base class rejects one of the ports. *)
Lemma check_topology_size_not_sufficient :
  ¬ (∀ (base : node → list nat → list nat → bool) connected_inputs connected_outputs,
       check_topology base connected_inputs connected_outputs (node_of 4) = true
       ↔ length connected_outputs = get_num_output_ports (node_of 4)).
Proof.
  intros H.
  destruct (H port_range_check [] [0; 1; 2; 9]) as [_ Hfalse].
  specialize (Hfalse eq_refl). vm_compute in Hfalse. discriminate.
Qed.

(** ** Channel attachment *)

(** C4. On a node with [channel_count] channels, [connect_channel] with a
    channel index at or above [channel_count] fails with [OutOfRange] and
    leaves the whole node, properties, aggregate MTU and channel bindings,
    as it was. *)
Theorem connect_channel_rejects rf s channel xport :
  reachable rf s → get_num_channels s ≤ channel →
  connect_channel rf channel xport s = (Err OutOfRange, s).
Proof.
  intros Hs Hc. apply connect_channel_out_of_range.
  rewrite (reachable_sizes rf s Hs). exact Hc.
Qed.

Lemma connect_channel_rejects_witness :
  connect_channel 1 2 (xport_of 1500) (node_of 2) = (Err OutOfRange, node_of 2).
Proof.
  apply connect_channel_rejects.
  - eapply (reachable_new 1 0 2 sc16_args (2 ^ 64 - 1)). vm_compute. reflexivity.
  - vm_compute. lia.
Defined.

(** ** The scaling resolver *)

(** C5. When the scaling resolver of channel [i] runs on a valid
    [Scaling[i] = v], the node changes by exactly one device-control call,
    [set_scale_factor(i, 32767 / v)], appended to the calls made so far, and
    setting [Scaling[i]] on a node makes that one call and no other.  On a
    node of four channels, setting [Scaling[2]] to [1.0] makes the single
    call [set_scale_factor(2, 32767.0)]. *)
Theorem scaling_resolver_one_call :
  (∀ i s p v,
     _scaling_out s !! i = Some p → prop_data p = Some v →
     run_resolver (SCALING_RESOLVER i i) s
     = upd.calls (λ calls, calls ++ [set_scale_factor i (32767 / v)%float]) s)
  ∧ (∀ rf s i (v : float),
       1 ≤ rf → reachable rf s → i < get_num_channels s →
       ∃ s', set_property rf PROP_KEY_SCALING v (out_edge i) s = (Ok tt, s')
             ∧ dev_calls s' = dev_calls s ++ [set_scale_factor i (32767 / v)%float])
  ∧ (∀ rf ctr stream_args base_mtu,
       1 ≤ rf →
       ∃ s ctr' s',
         rfnoc_tx_streamer ctr 4 stream_args base_mtu = (Ok s, ctr')
         ∧ dev_calls s = []
         ∧ set_property rf PROP_KEY_SCALING 1%float (out_edge 2) s = (Ok tt, s')
         ∧ dev_calls s' = [set_scale_factor 2 32767%float]).
Proof.
  split; [| split].
  - intros i s p v Hp Hv. cbn [run_resolver]. by rewrite Hp, Hv.
  - intros rf s i v Hrf Hs Hi. destruct (reachable_keeps rf s Hrf Hs) as [Hwf _].
    eexists. split; [by apply set_property_scaling | reflexivity].
  - intros rf ctr stream_args base_mtu Hrf.
    eexists _, _, _. split; [apply rfnoc_tx_streamer_fresh |].
    split; [reflexivity |].
    split; [apply set_property_scaling; [apply fresh_node_wf | exact Hrf | cbn; lia] |].
    reflexivity.
Qed.

Lemma scaling_resolver_one_call_witness :
  dev_calls (set_property 1 PROP_KEY_SCALING 1%float (out_edge 2) (node_of 4)).2
  = [set_scale_factor 2 32767%float]
  ∧ dev_calls (run_resolver (SCALING_RESOLVER 2 2)
                 (store PROP_KEY_SCALING 1%float 2 (node_of 4)))
    = [set_scale_factor 2 32767%float].
Proof.
  split.
  - destruct (proj2 (proj2 scaling_resolver_one_call) 1 0%N sc16_args (2 ^ 64 - 1)%N
                (le_n 1))
      as (s & ctr' & s' & Hnew & _ & Hset & Hcalls).
    rewrite rfnoc_tx_streamer_fresh in Hnew. injection Hnew as <- _.
    change (fresh_node _ 4 sc16_args (2 ^ 64 - 1)) with (node_of 4) in Hset.
    rewrite Hset. exact Hcalls.
  - rewrite (proj1 scaling_resolver_one_call 2
               (store PROP_KEY_SCALING 1%float 2 (node_of 4))
               (mk_property PROP_KEY_SCALING (out_edge 2) (Some 1%float)) 1%float
               eq_refl eq_refl).
    reflexivity.
Defined.

(** ** The aggregate MTU *)

(** C6. In every state of a node, the aggregate MTU is at most the value
    of each channel's MTU property that is valid. *)
Theorem aggregate_mtu_le_valid rf s :
  1 ≤ rf → reachable rf s →
  ∀ i p m, _mtu_out s !! i = Some p → prop_data p = Some m → (get_mtu s ≤ m)%N.
Proof.
  intros Hrf Hs. exact (proj2 (reachable_keeps rf s Hrf Hs)).
Qed.

(** ** What stays as constructed *)

Lemma fmap_seq_const {A} (h : nat → A) (v : A) a n :
  (∀ i, h i = v) → h <$> seq a n = replicate n v.
Proof.
  intros Hh. revert a. induction n as [|n IH]; intros a; [done |].
  cbn [seq fmap list_fmap replicate]. f_equal; [apply Hh | apply IH].
Qed.

(** C7. From construction on, after any operations, the property and the
    action forwarding policy are both [DROP], and the node has no input
    port. *)
Theorem forwarding_dropped rf ctr num_chans stream_args base_mtu ops :
  ∃ s ctr',
    rfnoc_tx_streamer ctr num_chans stream_args base_mtu = (Ok s, ctr')
    ∧ _prop_fwd_policy (run_ops rf ops s) = DROP
    ∧ _action_fwd_policy (run_ops rf ops s) = DROP
    ∧ get_num_input_ports (run_ops rf ops s) = 0.
Proof.
  eexists _, _. split; [apply rfnoc_tx_streamer_fresh |].
  destruct (run_ops_frame rf ops
              (fresh_node (STREAMER_ID +:+ "#" +:+ pretty ctr) num_chans stream_args base_mtu))
    as [_ _ _ Hp Ha _ _ _ _ _ _ _].
  rewrite Hp, Ha. done.
Qed.

(** C8. The identifier of a node is the fixed prefix followed by the value
    the counter had at construction, and [get_unique_id] returns it after
    any operations. *)
Theorem unique_id_fixed rf ctr num_chans stream_args base_mtu ops :
  ∃ s ctr',
    rfnoc_tx_streamer ctr num_chans stream_args base_mtu = (Ok s, ctr')
    ∧ get_unique_id s = "TxStreamer#" +:+ pretty ctr
    ∧ get_unique_id (run_ops rf ops s) = get_unique_id s.
Proof.
  eexists _, _. split; [apply rfnoc_tx_streamer_fresh |].
  split; [reflexivity |]. apply (frame_unique_id _ _ (run_ops_frame rf ops _)).
Qed.

(** C9. Right after construction every channel's type property is valid
    and holds the wire format of the stream arguments, while the scaling,
    sample-rate, tick-rate and MTU properties of every channel have no
    value. *)
Theorem type_property_initialised ctr num_chans stream_args base_mtu :
  ∃ s ctr',
    rfnoc_tx_streamer ctr num_chans stream_args base_mtu = (Ok s, ctr')
    ∧ prop_data <$> _type_out s = replicate num_chans (Some (otw_format stream_args))
    ∧ prop_data <$> _scaling_out s = replicate num_chans None
    ∧ prop_data <$> _samp_rate_out s = replicate num_chans None
    ∧ prop_data <$> _tick_rate_out s = replicate num_chans None
    ∧ prop_data <$> _mtu_out s = replicate num_chans None.
Proof.
  eexists _, _. split; [apply rfnoc_tx_streamer_fresh |].
  unfold fresh_node, partial_node. node_simpl.
  rewrite <- !list_fmap_compose. repeat split; by apply fmap_seq_const.
Qed.

(** C10. After any operations [get_stream_args] returns the stream
    arguments given to the constructor. *)
Theorem stream_args_fixed rf ctr num_chans stream_args base_mtu ops :
  ∃ s ctr',
    rfnoc_tx_streamer ctr num_chans stream_args base_mtu = (Ok s, ctr')
    ∧ get_stream_args s = stream_args
    ∧ get_stream_args (run_ops rf ops s) = stream_args.
Proof.
  eexists _, _. split; [apply rfnoc_tx_streamer_fresh |].
  split; [reflexivity |]. unfold get_stream_args.
  rewrite (frame_stream_args _ _ (run_ops_frame rf ops _)). reflexivity.
Qed.

(** ** Sequences of channel attachments *)

Lemma aggregate_mtu_le_valid_witness :
  (get_mtu (connect_all 1 four_transports (node_of 4)) ≤ 1500)%N.
Proof.
  apply (aggregate_mtu_le_valid 1 (connect_all 1 four_transports (node_of 4)) (le_n 1)
           (reachable_run_ops 1 (attach four_transports) (node_of 4)
              (reachable_new 1 0 4 sc16_args (2 ^ 64 - 1) (node_of 4) 1 eq_refl))
           2 (mk_property PROP_KEY_MTU (out_edge 2) (Some 1500%N)) 1500%N).
  - vm_compute. reflexivity.
  - reflexivity.
Defined.

(** C1, as stated, fails on the scenario of the four transports: channel 2
    and channel 3 keep the payload sizes 1500 and 1472 of their own
    transports, above the aggregate 1400. *)
Lemma mtu_not_uniform_after_four_transports :
  ¬ mtu_uniform_min 1 four_transports (node_of 4).
Proof.
  intros H. destruct (H 1400%N eq_refl) as [_ Hprops].
  vm_compute in Hprops. discriminate.
Qed.

Example four_transports_mtu :
  get_mtu (connect_all 1 four_transports (node_of 4)) = 1400%N
  ∧ prop_data <$> _mtu_out (connect_all 1 four_transports (node_of 4))
    = [Some 1400%N; Some 1400%N; Some 1500%N; Some 1472%N].
Proof. vm_compute. done. Qed.

Lemma connect_all_app rf calls1 calls2 s :
  connect_all rf (calls1 ++ calls2) s = connect_all rf calls2 (connect_all rf calls1 s).
Proof. unfold connect_all, attach, run_ops. by rewrite fmap_app, foldl_app. Qed.

Lemma connect_all_cons rf call calls s :
  connect_all rf (call :: calls) s
  = connect_all rf calls (connect_channel rf call.1 call.2 s).2.
Proof. done. Qed.

Lemma connect_all_reachable rf calls s :
  reachable rf s → reachable rf (connect_all rf calls s).
Proof. apply reachable_run_ops. Qed.

Lemma connect_channel_reachable rf c xport s :
  reachable rf s → reachable rf (connect_channel rf c xport s).2.
Proof. apply (reachable_step rf (op_connect_channel c xport)). Qed.

Lemma connect_channel_num_chans rf c xport s :
  _num_chans (connect_channel rf c xport s).2 = _num_chans s.
Proof. apply (frame_num_chans _ _ (connect_channel_frame rf c xport s)). Qed.

(** Calls with payload sizes above [m] leave the aggregate above [m]. *)
Lemma connect_all_above rf m calls s :
  1 ≤ rf → reachable rf s →
  (∀ call, call ∈ calls → call.1 < get_num_channels s) →
  (∀ call, call ∈ calls → (m < payload call)%N) →
  (m < get_mtu s)%N →
  (m < get_mtu (connect_all rf calls s))%N.
Proof.
  intros Hrf. revert s. induction calls as [|[c x] calls IH]; intros s Hs Hch Hpay Hm;
    [done |].
  rewrite connect_all_cons. cbn [fst snd].
  assert (c < get_num_channels s) as Hc by (apply (Hch (c, x)); left).
  assert (m < get_max_payload_size x)%N as Hx by (apply (Hpay (c, x)); left).
  destruct (reachable_keeps rf s Hrf Hs) as [Hwf _].
  apply IH.
  - by apply connect_channel_reachable.
  - intros call Hin. unfold get_num_channels. rewrite connect_channel_num_chans.
    apply Hch. by right.
  - intros call Hin. apply Hpay. by right.
  - destruct (N.lt_ge_cases (get_max_payload_size x) (get_mtu s)) as [Hlt|Hge].
    + by rewrite connect_channel_lt.
    + by rewrite connect_channel_ge.
Qed.

(** Calls with payload sizes at or above the aggregate [m] leave it at [m];
    each one lands in the MTU property of its own channel. *)
Lemma connect_all_at_or_above rf m calls s :
  1 ≤ rf → reachable rf s →
  (∀ call, call ∈ calls → call.1 < get_num_channels s) →
  (∀ call, call ∈ calls → (m ≤ payload call)%N) →
  get_mtu s = m →
  get_mtu (connect_all rf calls s) = m
  ∧ ∀ i v, prop_data <$> _mtu_out s !! i = Some (Some v) →
      prop_data <$> _mtu_out (connect_all rf calls s) !! i
      = Some (Some (last_attached i v calls)).
Proof.
  intros Hrf. revert s. induction calls as [|[c x] calls IH]; intros s Hs Hch Hpay Hm;
    [done |].
  rewrite connect_all_cons. cbn [fst snd].
  assert (c < get_num_channels s) as Hc by (apply (Hch (c, x)); left).
  assert (m ≤ get_max_payload_size x)%N as Hx by (apply (Hpay (c, x)); left).
  destruct (reachable_keeps rf s Hrf Hs) as [Hwf _].
  pose proof (connect_channel_reachable rf c x s Hs) as Hs1.
  pose proof (connect_channel_num_chans rf c x s) as Hn1.
  rewrite connect_channel_ge in * by (done || by rewrite Hm).
  cbn [snd] in *.
  destruct (IH _ Hs1) as [IHm IHv].
  - intros call Hin. unfold get_num_channels. rewrite Hn1. apply Hch. by right.
  - intros call Hin. apply Hpay. by right.
  - done.
  - split; [done |]. intros i v Hv.
    unfold last_attached. cbn [foldl fst]. apply IHv. cbn [store]. node_simpl.
    unfold payload. cbn [snd].
    destruct (decide (c = i)) as [->|Hne].
    + rewrite list_lookup_alter_eq.
      destruct (_mtu_out s !! i); simplify_eq/=. done.
    + by rewrite list_lookup_alter_ne.
Qed.

Lemma last_attached_ge i m v later :
  (m ≤ v)%N → (∀ call, call ∈ later → (m ≤ payload call)%N) →
  (m ≤ last_attached i v later)%N.
Proof.
  unfold last_attached. revert v.
  induction later as [|call later IH]; intros v Hv Hlater; [done |].
  cbn [foldl]. apply IH.
  - case_decide; [apply Hlater; left | done].
  - intros call' Hin. apply Hlater. by right.
Qed.

Lemma min_payload_le call calls p :
  p ∈ payload <$> call :: calls →
  (foldr (λ c, N.min (payload c)) (payload call) calls ≤ p)%N.
Proof.
  induction calls as [|call' calls IH]; cbn [foldr fmap list_fmap].
  - intros ->%list_elem_of_singleton. done.
  - intros Hin. apply elem_of_cons in Hin as [->|Hin].
    + etrans; [apply N.le_min_r |]. apply IH. left.
    + apply elem_of_cons in Hin as [->|Hin]; [apply N.le_min_l |].
      etrans; [apply N.le_min_r |]. apply IH. by right.
Qed.

Lemma min_payload_elem call calls :
  foldr (λ c, N.min (payload c)) (payload call) calls ∈ payload <$> call :: calls.
Proof.
  induction calls as [|call' calls IH]; cbn [foldr fmap list_fmap]; [left |].
  destruct (N.min_spec (payload call')
              (foldr (λ c, N.min (payload c)) (payload call) calls)) as [[_ ->]|[_ ->]].
  - right. left.
  - cbn [fmap list_fmap] in IH. apply elem_of_cons in IH as [->|IH]; [left |].
    right. by right.
Qed.

(** The calls split at the first one that supplies the least payload
    size. *)
Lemma split_at_first_min calls m :
  m ∈ payload <$> calls → (∀ call, call ∈ calls → (m ≤ payload call)%N) →
  ∃ pre call, calls = pre ++ call :: after_first m calls
              ∧ payload call = m
              ∧ ∀ call', call' ∈ pre → (m < payload call')%N.
Proof.
  induction calls as [|call calls IH]; intros Hin Hle; [by apply elem_of_nil in Hin |].
  cbn [after_first]. destruct (decide (payload call = m)) as [Heq|Hne].
  - exists [], call. split; [done |]. split; [done |]. intros ? []%elem_of_nil.
  - cbn [fmap list_fmap] in Hin. apply elem_of_cons in Hin as [Hin|Hin]; [done |].
    destruct (IH Hin) as (pre & call0 & Hcalls & Hm & Hpre).
    { intros call' Hin'. apply Hle. by right. }
    exists (call :: pre), call0. split; [by rewrite Hcalls at 1 |]. split; [done |].
    intros call' Hin'. apply elem_of_cons in Hin' as [->|Hin']; [| by apply Hpre].
    assert (m ≤ payload call)%N by (apply Hle; left). lia.
Qed.

(** C1, as the code has it.  After calls [connect_channel] with payload
    sizes [p_1..p_n] on channels of the node, made while the aggregate MTU
    is above [min(p_1..p_n)], the aggregate MTU is [min(p_1..p_n)]; every
    channel's MTU property is valid and at least that minimum: it holds the
    payload size of the last call on its channel made after the first call
    that supplied the minimum, and the minimum when there is no such call. *)
Theorem connect_all_mtu rf s calls m :
  1 ≤ rf → reachable rf s →
  (∀ call, call ∈ calls → call.1 < get_num_channels s) →
  min_payload calls = Some m → (m < get_mtu s)%N →
  get_mtu (connect_all rf calls s) = m
  ∧ ∀ i, i < get_num_channels s →
      prop_data <$> _mtu_out (connect_all rf calls s) !! i
      = Some (Some (last_attached i m (after_first m calls)))
      ∧ (m ≤ last_attached i m (after_first m calls))%N.
Proof.
  intros Hrf Hs Hch Hmin Hm.
  assert (m ∈ payload <$> calls ∧ ∀ call, call ∈ calls → (m ≤ payload call)%N)
    as [Hin Hle].
  { destruct calls as [|call calls]; [done |]. cbn [min_payload] in Hmin.
    injection Hmin as <-. split; [apply min_payload_elem |].
    intros call' Hin'. apply min_payload_le. by apply list_elem_of_fmap_2. }
  destruct (split_at_first_min calls m Hin Hle) as (pre & [c x] & Hcalls & Hpay & Hpre).
  set (later := after_first m calls) in *.
  assert (∀ call, call ∈ pre → call.1 < get_num_channels s) as Hch_pre.
  { intros call Hc. apply Hch. rewrite Hcalls. apply elem_of_app. by left. }
  assert (c < get_num_channels s) as Hc.
  { apply (Hch (c, x)). rewrite Hcalls. apply elem_of_app. right. left. }
  assert (∀ call, call ∈ later → call.1 < get_num_channels s ∧ (m ≤ payload call)%N)
    as Hlater.
  { intros call Hc'. assert (call ∈ calls) as Hc''.
    { rewrite Hcalls. apply elem_of_app. right. by right. }
    split; [by apply Hch | by apply Hle]. }
  rewrite Hcalls, connect_all_app, connect_all_cons. cbn [fst snd].
  set (s1 := connect_all rf pre s).
  assert (reachable rf s1) as Hs1 by (by apply connect_all_reachable).
  assert (m < get_mtu s1)%N as Hm1 by (by apply connect_all_above).
  assert (_num_chans s1 = _num_chans s) as Hn1
    by apply (frame_num_chans _ _ (run_ops_frame rf (attach pre) s)).
  destruct (reachable_keeps rf s1 Hrf Hs1) as [Hwf1 _].
  pose proof (connect_channel_reachable rf c x s1 Hs1) as Hs2.
  unfold payload in Hpay. cbn [snd] in Hpay.
  rewrite connect_channel_lt in * by (rewrite ?Hpay, ?Hn1; done).
  cbn [snd] in *. rewrite Hpay in *.
  match goal with |- context [connect_all rf later ?t] => set (s2 := t) in * end.
  assert (_num_chans s2 = _num_chans s) as Hn2 by (subst s2; node_simpl; done).
  destruct (connect_all_at_or_above rf m later s2 Hrf Hs2) as [Hagg Hvals].
  - intros call Hc'. unfold get_num_channels. rewrite Hn2. by apply Hlater.
  - intros call Hc'. by apply Hlater.
  - done.
  - split; [done |]. intros i Hi. split.
    + apply Hvals. subst s2. node_simpl. rewrite list_lookup_fmap.
      destruct (lookup_lt_is_Some_2 (_mtu_out s1) i) as [q ->]; [| done].
      rewrite (wf_mtu_length _ Hwf1), Hn1. exact Hi.
    + apply last_attached_ge; [done |]. intros call Hc'. by apply Hlater.
Qed.

Lemma connect_all_mtu_witness :
  get_mtu (connect_all 1 four_transports (node_of 4)) = 1400%N
  ∧ prop_data <$> _mtu_out (connect_all 1 four_transports (node_of 4)) !! 2
    = Some (Some 1500%N).
Proof.
  destruct (connect_all_mtu 1 (node_of 4) four_transports 1400%N (le_n 1)
              (reachable_new 1 0 4 sc16_args (2 ^ 64 - 1) (node_of 4) 1 eq_refl))
    as [Hagg Hvals].
  - intros call Hin. unfold four_transports in Hin.
    repeat (apply elem_of_cons in Hin as [->|Hin]; [cbn; lia |]).
    by apply elem_of_nil in Hin.
  - reflexivity.
  - vm_compute. reflexivity.
  - split; [exact Hagg |]. exact (proj1 (Hvals 2 ltac:(cbn; lia))).
Defined.

(** ** Relations every operation keeps *)

(** A relation between the node before and the node after that holds
    across the resolver bodies, the engine's bookkeeping, the binding of a
    transport and the writes to the keys [writable] holds across every
    operation that writes only those keys. *)
Section Preserved.

Variable R : node → node → Prop.
Variable writable : prop_key → bool.

Hypothesis R_refl : ∀ s, R s s.
Hypothesis R_trans : ∀ s1 s2 s3, R s1 s2 → R s2 s3 → R s1 s3.
Hypothesis R_resolver : ∀ fn s, R s (run_resolver fn s).
Hypothesis R_dirty : ∀ f s, R s (upd.dirty f s).
Hypothesis R_xports : ∀ f s, R s (upd.xports f s).
Hypothesis R_store : ∀ k v i s, writable k = true → R s (store k v i s).
Hypothesis writable_mtu : writable PROP_KEY_MTU = true.

Lemma invoke_kept r s : R s (invoke r s).
Proof. unfold invoke. case_match; [apply R_resolver | apply R_refl]. Qed.

Lemma foldl_invoke_kept rs s : R s (foldl (λ s' r, invoke r s') s rs).
Proof.
  revert s. induction rs as [|r rs IH]; intros s; cbn [foldl]; [apply R_refl |].
  eapply R_trans; [apply invoke_kept | apply IH].
Qed.

Lemma run_round_kept s : R s (run_round s).
Proof.
  unfold run_round. eapply R_trans; [apply R_dirty | apply foldl_invoke_kept].
Qed.

Lemma resolve_rounds_kept rounds s : R s (resolve_rounds rounds s).2.
Proof.
  revert s. induction rounds as [|n IH]; intros s; cbn [resolve_rounds];
    destruct (_dirty s); try apply R_refl.
  eapply R_trans; [apply run_round_kept | apply IH].
Qed.

Lemma set_property_kept rf k v src s :
  writable k = true → R s (set_property rf k v src s).2.
Proof.
  intros Hk. unfold set_property, bind, get_state, modify, throw, resolve.
  case_bool_decide; [| apply R_refl].
  match goal with |- context [resolve_rounds ?n ?t] =>
    pose proof (resolve_rounds_kept n t) as Hr;
    destruct (resolve_rounds n t) as [[] s'] end;
    cbn [snd] in *;
    (eapply R_trans; [| exact Hr]);
    (eapply R_trans; [apply (R_store k v (instance src) s Hk) | apply R_dirty]).
Qed.

Lemma connect_channel_kept rf channel xport s :
  R s (connect_channel rf channel xport s).2.
Proof.
  unfold connect_channel, bind, get_state, UHD_ASSERT_THROW, ret, throw.
  case_bool_decide; [| apply R_refl].
  pose proof (set_property_kept rf PROP_KEY_MTU (get_max_payload_size xport)
                (out_edge channel) s writable_mtu) as Hs.
  destruct (set_property rf PROP_KEY_MTU _ _ s) as [[] s']; cbn [snd] in *; [| exact Hs].
  eapply R_trans; [exact Hs | apply R_xports].
Qed.

Lemma step_kept rf o s : writes_allowed writable o → R s (step rf o s).
Proof.
  destruct o; cbn [step writes_allowed]; intros Ho; try apply R_refl.
  - by apply set_property_kept.
  - apply connect_channel_kept.
Qed.

Lemma run_ops_kept rf ops s :
  Forall (writes_allowed writable) ops → R s (run_ops rf ops s).
Proof.
  unfold run_ops. intros Hops. revert s.
  induction Hops as [|o ops Ho Hops IH]; intros s; cbn [foldl]; [apply R_refl |].
  eapply R_trans; [by apply step_kept | apply IH].
Qed.

End Preserved.

Lemma writes_all_allowed ops : Forall (writes_allowed (λ _, true)) ops.
Proof. apply Forall_forall. intros o _. by destruct o. Qed.

(** *** The aggregate MTU only goes down *)

Lemma run_resolver_mtu_le fn s : (get_mtu (run_resolver fn s) ≤ get_mtu s)%N.
Proof.
  destruct fn; cbn [run_resolver]; repeat case_match; try reflexivity.
  unfold set_all_mtu_out. node_simpl.
  match goal with H : (_ <? _)%N = true |- _ => apply N.ltb_lt in H end. lia.
Qed.

(** X7. Whatever the node and whatever the operations, the aggregate MTU
    after them is at most the aggregate MTU before them: the resolver
    lowers it or leaves it, and nothing else writes it. *)
Theorem aggregate_mtu_never_grows rf ops s :
  (get_mtu (run_ops rf ops s) ≤ get_mtu s)%N.
Proof.
  apply (run_ops_kept (λ s s', (get_mtu s' ≤ get_mtu s)%N) (λ _, true)).
  - intros ?. reflexivity.
  - intros s1 s2 s3 H12 H23. by etrans.
  - apply run_resolver_mtu_le.
  - intros f s0. reflexivity.
  - intros f s0. reflexivity.
  - intros k v i s0 _. destruct k; reflexivity.
  - reflexivity.
  - apply writes_all_allowed.
Qed.

(** *** Valid properties stay valid *)

Lemma valid_at_set_all {T} (v : T) (l : list (property_t T)) i :
  valid_at l i = true → valid_at (prop_set v <$> l) i = true.
Proof.
  unfold valid_at. rewrite list_lookup_fmap. by destruct (l !! i).
Qed.

Lemma valid_at_alter_mono {T} (v : T) c (l : list (property_t T)) i :
  valid_at l i = true → valid_at (alter (prop_set v) c l) i = true.
Proof.
  unfold valid_at. destruct (decide (c = i)) as [->|Hne].
  - rewrite list_lookup_alter_eq. by destruct (l !! i).
  - by rewrite list_lookup_alter_ne.
Qed.

Lemma run_resolver_valid fn s id :
  prop_is_valid id s = true → prop_is_valid id (run_resolver fn s) = true.
Proof.
  destruct fn; cbn [run_resolver]; repeat case_match; try done.
  unfold set_all_mtu_out, prop_is_valid. node_simpl.
  repeat case_match; try done. apply valid_at_set_all.
Qed.

Lemma store_valid k v i s id :
  prop_is_valid id s = true → prop_is_valid id (store k v i s) = true.
Proof.
  unfold prop_is_valid. destruct k; cbn [store]; node_simpl;
    repeat case_match; try done; apply valid_at_alter_mono.
Qed.

(** X9. A property that is valid stays valid through every operation, on
    every channel and for every key: the unit only ever sets properties. *)
Theorem valid_stays_valid rf ops s id :
  prop_is_valid id s = true → prop_is_valid id (run_ops rf ops s) = true.
Proof.
  revert id.
  apply (run_ops_kept
           (λ s s', ∀ id, prop_is_valid id s = true → prop_is_valid id s' = true)
           (λ _, true)).
  - done.
  - intros s1 s2 s3 H12 H23 id Hid. by apply H23, H12.
  - intros fn s0 id. apply run_resolver_valid.
  - done.
  - done.
  - intros k v i s0 _ id. apply store_valid.
  - reflexivity.
  - apply writes_all_allowed.
Qed.

Lemma valid_stays_valid_witness :
  prop_is_valid (PROP_KEY_SCALING, out_edge 2)
    (run_ops 1 (attach four_transports)
       (store PROP_KEY_SCALING 1%float 2 (node_of 4))) = true.
Proof.
  apply (valid_stays_valid 1 (attach four_transports)
           (store PROP_KEY_SCALING 1%float 2 (node_of 4))
           (PROP_KEY_SCALING, out_edge 2)).
  reflexivity.
Defined.

(** *** The type properties *)

Lemma run_resolver_type fn s : _type_out (run_resolver fn s) = _type_out s.
Proof. destruct fn; cbn [run_resolver]; by repeat case_match. Qed.

(** X12. Operations other than a write to a type property leave every
    type property as it is: no resolver of the unit and no channel
    attachment writes the wire format. *)
Theorem type_written_only_from_outside rf ops s :
  Forall (λ o, writes_type o = false) ops →
  _type_out (run_ops rf ops s) = _type_out s.
Proof.
  intros Hops.
  apply (run_ops_kept (λ s s', _type_out s' = _type_out s)
           (λ k, bool_decide (k ≠ PROP_KEY_TYPE))).
  - done.
  - intros s1 s2 s3 H12 H23. congruence.
  - intros fn s0. apply run_resolver_type.
  - done.
  - done.
  - intros k v i s0 Hk. by destruct k.
  - done.
  - eapply Forall_impl; [exact Hops |]. intros o Ho.
    destruct o as [k v src| | | | | |]; cbn [writes_allowed]; try done.
    by destruct k.
Qed.

Lemma type_written_only_from_outside_witness :
  prop_data <$> _type_out
    (run_ops 1
       (op_set_property PROP_KEY_SCALING 1%float (out_edge 2) :: attach four_transports)
       (node_of 4))
  = replicate 4 (Some "sc16").
Proof.
  rewrite (type_written_only_from_outside 1
             (op_set_property PROP_KEY_SCALING 1%float (out_edge 2)
                :: attach four_transports)
             (node_of 4)).
  - reflexivity.
  - repeat constructor.
Defined.

(** ** What the constructor builds *)




Lemma foldl_run_resolver_unset fns s :
  unset (_scaling_out s) → unset (_samp_rate_out s) → unset (_tick_rate_out s) →
  unset (_mtu_out s) → foldl (λ s' fn, run_resolver fn s') s fns = s.
Proof.
  intros H1 H2 H3 H4. induction fns as [|fn fns IH]; cbn [foldl]; [done |].
  by rewrite run_resolver_unset.
Qed.

(** X4. On the node the constructor returns no device-control call has
    been made, no transport is bound, the aggregate MTU is the one of the
    base, and running resolver bodies of the unit, any of them, in any
    order and any number of times, changes nothing: every body is guarded
    by the validity of a property that has no value yet. *)
Theorem new_node_resolvers_inert ctr num_chans stream_args base_mtu :
  ∃ s ctr',
    rfnoc_tx_streamer ctr num_chans stream_args base_mtu = (Ok s, ctr')
    ∧ dev_calls s = []
    ∧ _xports s = ∅
    ∧ get_mtu s = base_mtu
    ∧ ∀ fns, foldl (λ s' fn, run_resolver fn s') s fns = s.
Proof.
  eexists _, _. split; [apply rfnoc_tx_streamer_fresh |].
  repeat split.
  intros fns. apply foldl_run_resolver_unset; cbn; by apply unset_new.
Qed.

(** X5. In every state of a node the number of output ports is the channel
    count the constructor was given, and each of the five property vectors
    holds exactly one property per channel. *)
Theorem one_property_per_channel rf ctr num_chans stream_args base_mtu ops :
  ∃ s ctr',
    rfnoc_tx_streamer ctr num_chans stream_args base_mtu = (Ok s, ctr')
    ∧ get_num_output_ports (run_ops rf ops s) = num_chans
    ∧ length (_scaling_out (run_ops rf ops s)) = num_chans
    ∧ length (_samp_rate_out (run_ops rf ops s)) = num_chans
    ∧ length (_tick_rate_out (run_ops rf ops s)) = num_chans
    ∧ length (_type_out (run_ops rf ops s)) = num_chans
    ∧ length (_mtu_out (run_ops rf ops s)) = num_chans.
Proof.
  eexists _, _. split; [apply rfnoc_tx_streamer_fresh |].
  destruct (run_ops_frame rf ops
              (fresh_node (STREAMER_ID +:+ "#" +:+ pretty ctr) num_chans stream_args base_mtu))
    as [_ _ Hn _ _ _ _ H1 H2 H3 H4 H5].
  unfold get_num_output_ports, get_num_channels.
  rewrite Hn, H1, H2, H3, H4, H5. cbn.
  rewrite !length_fmap, !length_seq. done.
Qed.

(** ** Identifiers of successive streamers *)

Lemma mod_below_twice (a m : N) :
  (a < 2 * m)%N → (a mod m)%N = (if decide (a < m)%N then a else a - m)%N.
Proof.
  intros Ha. case_decide as Hlt; [by apply N.mod_small |].
  symmetry. apply (N.mod_unique a m 1); lia.
Qed.

Lemma add_mod_inj (ctr j1 j2 m : N) :
  (ctr < m)%N → (j1 < m)%N → (j2 < m)%N →
  ((ctr + j1) mod m = (ctr + j2) mod m)%N → j1 = j2.
Proof.
  intros Hc H1 H2. rewrite !mod_below_twice by lia. repeat case_decide; lia.
Qed.

Lemma next_ctr_lt ctr : (next_ctr ctr < 2 ^ 64)%N.
Proof. unfold next_ctr. by apply N.mod_lt. Qed.

Lemma build_all_ids ctr reqs :
  (ctr < 2 ^ 64)%N →
  length (build_all ctr reqs) = length reqs
  ∧ get_unique_id <$> build_all ctr reqs
    = (λ j, "TxStreamer#" +:+ pretty ((ctr + N.of_nat j) mod 2 ^ 64)%N)
        <$> seq 0 (length reqs).
Proof.
  revert ctr. induction reqs as [|req reqs IH]; intros ctr Hctr; [done |].
  cbn [build_all]. rewrite rfnoc_tx_streamer_fresh.
  destruct (IH (next_ctr ctr) (next_ctr_lt ctr)) as [IHlen IHids].
  cbn [length seq fmap list_fmap]. split; [by rewrite IHlen |].
  f_equal.
  - unfold get_unique_id, fresh_node, partial_node. node_simpl.
    rewrite N.add_0_r, N.mod_small by done. reflexivity.
  - fold (fmap (M:=list) get_unique_id (build_all (next_ctr ctr) reqs)).
    rewrite IHids, <- fmap_S_seq, <- list_fmap_compose.
    apply list_fmap_ext. intros _ j _. cbn [compose]. do 2 f_equal.
    unfold next_ctr. rewrite N.Div0.add_mod_idemp_l. f_equal. lia.
Qed.

(** X6. Streamers built one after another, starting from a counter value
    of 64 bits, all get built and have pairwise distinct identifiers, as
    long as there are at most 2^64 of them: the identifier is the prefix
    followed by the counter in decimal, and the counter goes through every
    64-bit value, wrapping to 0, before it repeats. *)
Theorem unique_ids_distinct ctr reqs :
  (ctr < 2 ^ 64)%N → (N.of_nat (length reqs) ≤ 2 ^ 64)%N →
  length (build_all ctr reqs) = length reqs
  ∧ NoDup (get_unique_id <$> build_all ctr reqs).
Proof.
  intros Hctr Hlen. destruct (build_all_ids ctr reqs Hctr) as [Hl Hids].
  split; [exact Hl |]. rewrite Hids.
  apply NoDup_fmap_2_strong; [| apply NoDup_seq].
  intros j1 j2 Hj1%elem_of_seq Hj2%elem_of_seq Heq.
  apply (inj (String.app "TxStreamer#")), (inj pretty) in Heq.
  apply add_mod_inj in Heq; lia.
Qed.

Lemma unique_ids_distinct_witness :
  NoDup (get_unique_id <$>
           build_all (2 ^ 64 - 2)
             [ (1, sc16_args, 8000%N); (2, sc16_args, 8000%N); (4, sc16_args, 1500%N) ]).
Proof.
  refine (proj2 (unique_ids_distinct (2 ^ 64 - 2)
            [ (1, sc16_args, 8000%N); (2, sc16_args, 8000%N); (4, sc16_args, 1500%N) ]
            _ _)).
  - reflexivity.
  - vm_compute. discriminate.
Defined.

Example ids_across_the_wrap :
  get_unique_id <$>
    build_all (2 ^ 64 - 2)
      [ (1, sc16_args, 8000%N); (2, sc16_args, 8000%N); (4, sc16_args, 1500%N) ]
  = [ "TxStreamer#18446744073709551614"; "TxStreamer#18446744073709551615";
      "TxStreamer#0" ].
Proof. vm_compute. reflexivity. Qed.

(** ** One attachment *)

(** X11. On a node, [connect_channel] with a channel below the channel
    count returns normally; afterwards the MTU property of that channel
    holds the payload size of the transport, the aggregate MTU is the lesser
    of the former aggregate and that payload size, the MTU property of every
    other channel holds the payload size when it is below the former
    aggregate and is as before otherwise, the transport is bound to the
    channel, and no device-control call has been made. *)
Theorem connect_channel_attaches rf s channel xport :
  1 ≤ rf → reachable rf s → channel < get_num_channels s →
  ∃ s',
    connect_channel rf channel xport s = (Ok tt, s')
    ∧ get_mtu s' = N.min (get_mtu s) (get_max_payload_size xport)
    ∧ prop_data <$> _mtu_out s' !! channel = Some (Some (get_max_payload_size xport))
    ∧ (∀ j, j ≠ channel →
         prop_data <$> _mtu_out s' !! j
         = if decide (get_max_payload_size xport < get_mtu s)%N
           then (λ _, Some (get_max_payload_size xport)) <$> _mtu_out s !! j
           else prop_data <$> _mtu_out s !! j)
    ∧ _xports s' = <[channel := xport]> (_xports s)
    ∧ dev_calls s' = dev_calls s.
Proof.
  intros Hrf Hs Hc. destruct (reachable_keeps rf s Hrf Hs) as [Hwf _].
  pose proof (wf_mtu_length _ Hwf) as Hlen.
  destruct (lookup_lt_is_Some_2 (_mtu_out s) channel) as [p Hp];
    [rewrite Hlen; exact Hc |].
  destruct (N.lt_ge_cases (get_max_payload_size xport) (get_mtu s)) as [Hlt|Hge].
  - eexists. split; [by apply connect_channel_lt |]. node_simpl.
    split; [unfold get_mtu in *; lia |].
    split; [by rewrite list_lookup_fmap, Hp |].
    split; [| done]. intros j Hj. rewrite decide_True by done.
    rewrite list_lookup_fmap. by destruct (_mtu_out s !! j).
  - eexists. split; [by apply connect_channel_ge |]. cbn [store]. node_simpl.
    split; [unfold get_mtu in *; lia |].
    split; [by rewrite list_lookup_alter_eq, Hp |].
    split; [| done]. intros j Hj. rewrite decide_False by lia.
    by rewrite list_lookup_alter_ne.
Qed.

Lemma connect_channel_attaches_witness :
  ∃ s', connect_channel 1 1 (xport_of 1400) (node_of 4) = (Ok tt, s')
        ∧ get_mtu s' = 1400%N
        ∧ prop_data <$> _mtu_out s' !! 3 = Some (Some 1400%N).
Proof.
  destruct (connect_channel_attaches 1 (node_of 4) 1 (xport_of 1400) (le_n 1)
              (reachable_new 1 0 4 sc16_args (2 ^ 64 - 1) (node_of 4) 1 eq_refl))
    as (s' & Hcall & Hagg & _ & Hothers & _).
  - cbn. lia.
  - exists s'. split; [exact Hcall |]. split; [exact Hagg |].
    rewrite (Hothers 3) by lia. reflexivity.
Defined.

(** ** Many attachments *)

Lemma negotiated_perm n agg calls calls' :
  calls ≡ₚ calls' → negotiated n agg calls = negotiated n agg calls'.
Proof.
  unfold negotiated. intros Hperm. revert agg.
  induction Hperm as [|call calls calls' _ IH|call1 call2 calls|? ? ? _ IH1 _ IH2];
    intros agg; cbn [foldl].
  - done.
  - apply IH.
  - f_equal. repeat case_bool_decide; lia.
  - by rewrite IH1.
Qed.

(** X8. After any calls of [connect_channel] on a node, the aggregate MTU
    is the least of the aggregate before the calls and of the payload sizes
    of the calls whose channel is below the channel count; the calls with
    another channel are rejected and count for nothing.  So the aggregate
    does not depend on the order of the calls. *)
Theorem aggregate_mtu_negotiated rf s calls :
  1 ≤ rf → reachable rf s →
  get_mtu (connect_all rf calls s) = negotiated (get_num_channels s) (get_mtu s) calls
  ∧ ∀ calls', calls ≡ₚ calls' →
      get_mtu (connect_all rf calls' s) = get_mtu (connect_all rf calls s).
Proof.
  intros Hrf Hs.
  assert (∀ calls s, reachable rf s →
            get_mtu (connect_all rf calls s)
            = negotiated (get_num_channels s) (get_mtu s) calls) as Hall.
  { clear s calls Hs. intros calls.
    induction calls as [|[c x] calls IH]; intros s Hs; [done |].
    rewrite connect_all_cons. unfold negotiated. cbn [foldl fst snd].
    fold (negotiated (get_num_channels s)).
    destruct (reachable_keeps rf s Hrf Hs) as [Hwf _].
    pose proof (connect_channel_reachable rf c x s Hs) as Hs1.
    pose proof (connect_channel_num_chans rf c x s) as Hn1.
    rewrite (IH _ Hs1). unfold get_num_channels. rewrite Hn1. f_equal.
    case_bool_decide as Hc.
    - unfold payload. cbn [snd].
      destruct (N.lt_ge_cases (get_max_payload_size x) (get_mtu s)) as [Hlt|Hge].
      + rewrite connect_channel_lt by done. node_simpl. unfold get_mtu in *. lia.
      + rewrite connect_channel_ge by done. cbn [store]. node_simpl.
        unfold get_mtu in *. lia.
    - rewrite connect_channel_out_of_range; [done |].
      rewrite (wf_mtu_length _ Hwf). lia. }
  split; [by apply Hall |].
  intros calls' Hperm. rewrite !Hall by done. symmetry. by apply negotiated_perm.
Qed.

Lemma aggregate_mtu_negotiated_witness :
  get_mtu (connect_all 1 [ (0, xport_of 9000); (7, xport_of 100); (2, xport_of 1472) ]
             (connect_all 1 [ (1, xport_of 8000) ] (node_of 4)))
  = 1472%N.
Proof.
  rewrite (proj1 (aggregate_mtu_negotiated 1
             (connect_all 1 [ (1, xport_of 8000) ] (node_of 4))
             [ (0, xport_of 9000); (7, xport_of 100); (2, xport_of 1472) ]
             (le_n 1)
             (connect_all_reachable 1 [ (1, xport_of 8000) ] (node_of 4)
                (reachable_new 1 0 4 sc16_args (2 ^ 64 - 1) (node_of 4) 1 eq_refl)))).
  vm_compute. reflexivity.
Defined.

(** ** Device-control calls *)

Lemma step_device_calls rf o s :
  1 ≤ rf → wf s → dev_calls (step rf o s) = dev_calls s ++ device_calls_of (_num_chans s) o.
Proof.
  intros Hrf Hwf. destruct o as [k v src|c x| | | | |]; cbn [step device_calls_of];
    try by rewrite app_nil_r.
  - case_bool_decide as Hsrc.
    2:{ rewrite set_property_unregistered by done. by rewrite app_nil_r. }
    apply registered_edge in Hsrc as (c & -> & Hc). cbn [out_edge instance].
    fold (out_edge c). destruct k.
    + by rewrite set_property_scaling.
    + by rewrite set_property_samp_rate.
    + by rewrite set_property_tick_rate.
    + rewrite set_property_type by done. by rewrite app_nil_r.
    + rewrite app_nil_r.
      destruct (N.lt_ge_cases v (get_mtu s)) as [Hlt|Hge].
      * by rewrite set_property_mtu_lt.
      * by rewrite set_property_mtu_ge.
  - rewrite app_nil_r.
    destruct (decide (c < _num_chans s)) as [Hc|Hc].
    + destruct (N.lt_ge_cases (get_max_payload_size x) (get_mtu s)) as [Hlt|Hge].
      * by rewrite connect_channel_lt.
      * by rewrite connect_channel_ge.
    + rewrite connect_channel_out_of_range; [done |].
      rewrite (wf_mtu_length _ Hwf). lia.
Qed.

(** X10. The device-control calls made by a sequence of operations on a
    node are, in order, one [set_scale_factor(c, 32767 / v)],
    [set_samp_rate(v)] or [set_tick_rate(v)] for each write of [v] to the
    scaling, sample-rate or tick-rate property of a channel [c] of the node,
    and nothing else: writes to type and MTU properties, channel
    attachments, topology checks, getters and writes to a property that does
    not exist make no call. *)
Theorem device_calls_trace rf s ops :
  1 ≤ rf → reachable rf s →
  dev_calls (run_ops rf ops s)
  = dev_calls s ++ (ops ≫= device_calls_of (get_num_channels s)).
Proof.
  intros Hrf. unfold run_ops. revert s.
  induction ops as [|o ops IH]; intros s Hs; cbn [foldl]; [by rewrite app_nil_r |].
  change ((o :: ops) ≫= device_calls_of (get_num_channels s))
    with (device_calls_of (get_num_channels s) o
            ++ (ops ≫= device_calls_of (get_num_channels s))).
  destruct (reachable_keeps rf s Hrf Hs) as [Hwf _].
  rewrite (IH _ (reachable_step rf o s Hs)).
  unfold get_num_channels.
  rewrite (frame_num_chans _ _ (step_frame rf o s)), step_device_calls by done.
  by rewrite app_assoc.
Qed.

Lemma device_calls_trace_witness :
  dev_calls
    (run_ops 1
       [ op_set_property PROP_KEY_SAMP_RATE 2%float (out_edge 0);
         op_connect_channel 1 (xport_of 1400);
         op_set_property PROP_KEY_SCALING 1%float (out_edge 9);
         op_set_property PROP_KEY_MTU 1000%N (out_edge 0);
         op_set_property PROP_KEY_SCALING 1%float (out_edge 3);
         op_set_property PROP_KEY_SAMP_RATE 2%float (out_edge 1) ]
       (node_of 4))
  = [ set_samp_rate 2; set_scale_factor 3 32767; set_samp_rate 2 ].
Proof.
  rewrite (device_calls_trace 1 (node_of 4)) .
  - reflexivity.
  - apply le_n.
  - apply (reachable_new 1 0 4 sc16_args (2 ^ 64 - 1) (node_of 4) 1 eq_refl).
Defined.

(** ** The rate resolvers *)

(** X1. When the sample-rate resolver of channel [i] runs on a valid
    [SampleRate[i] = v], the node changes by exactly one device-control
    call, [set_samp_rate(v)], which names no channel.  A write of [v] to the
    sample-rate property of a channel of a node returns normally, makes
    that one call, leaves [v] in the property of that channel and leaves the
    sample-rate property of every other channel as it was: unlike the MTU,
    the rate is not copied across channels. *)
Theorem samp_rate_resolver_one_call :
  (∀ i s p v,
     _samp_rate_out s !! i = Some p → prop_data p = Some v →
     run_resolver (SAMP_RATE_RESOLVER i i) s
     = upd.calls (λ calls, calls ++ [set_samp_rate v]) s)
  ∧ (∀ rf s c (v : float),
       1 ≤ rf → reachable rf s → c < get_num_channels s →
       ∃ s', set_property rf PROP_KEY_SAMP_RATE v (out_edge c) s = (Ok tt, s')
             ∧ dev_calls s' = dev_calls s ++ [set_samp_rate v]
             ∧ prop_data <$> _samp_rate_out s' !! c = Some (Some v)
             ∧ (∀ j, j ≠ c → _samp_rate_out s' !! j = _samp_rate_out s !! j)
             ∧ get_mtu s' = get_mtu s).
Proof.
  split.
  - intros i s p v Hp Hv. cbn [run_resolver]. by rewrite Hp, Hv.
  - intros rf s c v Hrf Hs Hc. destruct (reachable_keeps rf s Hrf Hs) as [Hwf _].
    destruct (lookup_lt_is_Some_2 (_samp_rate_out s) c) as [p Hp];
      [rewrite (wf_samp_rate _ Hwf); exact Hc |].
    eexists. split; [by apply set_property_samp_rate |]. cbn [store]. node_simpl.
    split; [done |].
    split; [by rewrite list_lookup_alter_eq, Hp |].
    split; [| done]. intros j Hj. by rewrite list_lookup_alter_ne.
Qed.

Lemma samp_rate_resolver_one_call_witness :
  ∃ s', set_property 1 PROP_KEY_SAMP_RATE 2%float (out_edge 1) (node_of 4) = (Ok tt, s')
        ∧ dev_calls s' = [set_samp_rate 2]
        ∧ prop_data <$> _samp_rate_out s' !! 1 = Some (Some 2%float)
        ∧ prop_data <$> _samp_rate_out s' !! 0 = Some None.
Proof.
  destruct (proj2 samp_rate_resolver_one_call 1 (node_of 4) 1 2%float (le_n 1)
              (reachable_new 1 0 4 sc16_args (2 ^ 64 - 1) (node_of 4) 1 eq_refl))
    as (s' & Hset & Hcalls & Hown & Hothers & _).
  - cbn. lia.
  - exists s'. split; [exact Hset |]. split; [exact Hcalls |]. split; [exact Hown |].
    rewrite (Hothers 0) by lia. reflexivity.
Defined.

Example sample_rates_may_differ :
  prop_data <$> _samp_rate_out
    (run_ops 1 [ op_set_property PROP_KEY_SAMP_RATE 4%float (out_edge 0);
                 op_set_property PROP_KEY_SAMP_RATE 2%float (out_edge 1) ] (node_of 2))
  = [Some 4%float; Some 2%float].
Proof. vm_compute. reflexivity. Qed.

(** X2. When the tick-rate resolver of channel [i] runs on a valid
    [TickRate[i] = v], the node changes by exactly one device-control call,
    [set_tick_rate(v)], which names no channel.  A write of [v] to the
    tick-rate property of a channel of a node returns normally, makes that
    one call, leaves [v] in the property of that channel and leaves the
    tick-rate property of every other channel as it was. *)
Theorem tick_rate_resolver_one_call :
  (∀ i s p v,
     _tick_rate_out s !! i = Some p → prop_data p = Some v →
     run_resolver (TICK_RATE_RESOLVER i i) s
     = upd.calls (λ calls, calls ++ [set_tick_rate v]) s)
  ∧ (∀ rf s c (v : float),
       1 ≤ rf → reachable rf s → c < get_num_channels s →
       ∃ s', set_property rf PROP_KEY_TICK_RATE v (out_edge c) s = (Ok tt, s')
             ∧ dev_calls s' = dev_calls s ++ [set_tick_rate v]
             ∧ prop_data <$> _tick_rate_out s' !! c = Some (Some v)
             ∧ (∀ j, j ≠ c → _tick_rate_out s' !! j = _tick_rate_out s !! j)
             ∧ get_mtu s' = get_mtu s).
Proof.
  split.
  - intros i s p v Hp Hv. cbn [run_resolver]. by rewrite Hp, Hv.
  - intros rf s c v Hrf Hs Hc. destruct (reachable_keeps rf s Hrf Hs) as [Hwf _].
    destruct (lookup_lt_is_Some_2 (_tick_rate_out s) c) as [p Hp];
      [rewrite (wf_tick_rate _ Hwf); exact Hc |].
    eexists. split; [by apply set_property_tick_rate |]. cbn [store]. node_simpl.
    split; [done |].
    split; [by rewrite list_lookup_alter_eq, Hp |].
    split; [| done]. intros j Hj. by rewrite list_lookup_alter_ne.
Qed.

Lemma tick_rate_resolver_one_call_witness :
  ∃ s', set_property 1 PROP_KEY_TICK_RATE 8%float (out_edge 3) (node_of 4) = (Ok tt, s')
        ∧ dev_calls s' = [set_tick_rate 8]
        ∧ prop_data <$> _tick_rate_out s' !! 3 = Some (Some 8%float)
        ∧ prop_data <$> _tick_rate_out s' !! 0 = Some None.
Proof.
  destruct (proj2 tick_rate_resolver_one_call 1 (node_of 4) 3 8%float (le_n 1)
              (reachable_new 1 0 4 sc16_args (2 ^ 64 - 1) (node_of 4) 1 eq_refl))
    as (s' & Hset & Hcalls & Hown & Hothers & _).
  - cbn. lia.
  - exists s'. split; [exact Hset |]. split; [exact Hcalls |]. split; [exact Hown |].
    rewrite (Hothers 0) by lia. reflexivity.
Defined.

(** ** Attaching twice *)

Lemma alter_set_twice {T} (v : T) c (l : list (property_t T)) :
  alter (prop_set v) c (alter (prop_set v) c l) = alter (prop_set v) c l.
Proof.
  apply list_eq. intros j. destruct (decide (c = j)) as [->|Hne].
  - rewrite !list_lookup_alter_eq. by destruct (l !! j).
  - by rewrite !list_lookup_alter_ne.
Qed.

Lemma alter_set_all {T} (v : T) c (l : list (property_t T)) :
  alter (prop_set v) c (prop_set v <$> l) = prop_set v <$> l.
Proof.
  apply list_eq. intros j. destruct (decide (c = j)) as [->|Hne].
  - rewrite list_lookup_alter_eq, !list_lookup_fmap. by destruct (l !! j).
  - by rewrite list_lookup_alter_ne.
Qed.

(** X13. Attaching the same transport to the same channel of a node a
    second time changes nothing: the node after the second call is the node
    after the first, whether the channel is one of the node or not. *)
Theorem connect_channel_twice rf s channel xport :
  1 ≤ rf → reachable rf s →
  (connect_channel rf channel xport (connect_channel rf channel xport s).2).2
  = (connect_channel rf channel xport s).2.
Proof.
  intros Hrf Hs. destruct (reachable_keeps rf s Hrf Hs) as [Hwf _].
  destruct (decide (channel < _num_chans s)) as [Hc|Hc].
  2:{ assert (connect_channel rf channel xport s = (Err OutOfRange, s)) as Hout.
      { apply connect_channel_out_of_range. rewrite (wf_mtu_length _ Hwf). lia. }
      rewrite Hout. cbn [snd]. by rewrite Hout. }
  pose proof (connect_channel_reachable rf channel xport s Hs) as Hs1.
  destruct (reachable_keeps rf _ Hrf Hs1) as [Hwf1 _].
  pose proof (connect_channel_num_chans rf channel xport s) as Hn1.
  assert (get_mtu (connect_channel rf channel xport s).2 ≤ get_max_payload_size xport)%N
    as Hge1.
  { destruct (N.lt_ge_cases (get_max_payload_size xport) (get_mtu s)) as [Hlt|Hge].
    - rewrite connect_channel_lt by done. node_simpl. lia.
    - rewrite connect_channel_ge by done. cbn [store]. by node_simpl. }
  rewrite (connect_channel_ge rf channel xport (connect_channel rf channel xport s).2)
    by (done || by rewrite Hn1).
  cbn [snd]. clear Hs1 Hwf1 Hn1 Hge1.
  destruct (N.lt_ge_cases (get_max_payload_size xport) (get_mtu s)) as [Hlt|Hge].
  - rewrite connect_channel_lt by done. cbn [snd store]. destruct s. unfold_upd_goal.
    by rewrite alter_set_all, insert_insert_eq.
  - rewrite connect_channel_ge by done. cbn [snd store]. destruct s. unfold_upd_goal.
    by rewrite alter_set_twice, insert_insert_eq.
Qed.

Lemma connect_channel_twice_witness :
  (connect_channel 1 2 (xport_of 1472)
     (connect_channel 1 2 (xport_of 1472) (node_of 4)).2).2
  = (connect_channel 1 2 (xport_of 1472) (node_of 4)).2.
Proof.
  apply (connect_channel_twice 1 (node_of 4) 2 (xport_of 1472) (le_n 1)
           (reachable_new 1 0 4 sc16_args (2 ^ 64 - 1) (node_of 4) 1 eq_refl)).
Defined.

Example attachment_order_matters_for_properties :
  prop_data <$> _mtu_out (connect_all 1 [ (0, xport_of 1500); (1, xport_of 1400) ] (node_of 2))
  = [Some 1400%N; Some 1400%N]
  ∧ prop_data <$> _mtu_out (connect_all 1 [ (1, xport_of 1400); (0, xport_of 1500) ] (node_of 2))
    = [Some 1500%N; Some 1400%N].
Proof. vm_compute. done. Qed.

(** ** When the MTU properties stay uniform *)

Lemma set_all_values {T} (v : T) (l : list (property_t T)) :
  prop_data <$> (prop_set v <$> l) = replicate (length l) (Some v).
Proof. induction l as [|p l IH]; [done |]. cbn. by f_equal. Qed.

(** X14. On a node whose MTU properties all hold the aggregate MTU,
    attaching a transport to one of its channels keeps them all equal to
    the aggregate exactly when the payload size of the transport is at most
    the aggregate; a larger payload size stays in the property of its own
    channel, above the aggregate. *)
Theorem uniform_kept_iff_not_above rf s channel xport :
  1 ≤ rf → reachable rf s → channel < get_num_channels s → mtu_uniform s →
  mtu_uniform (connect_channel rf channel xport s).2
  ↔ (get_max_payload_size xport ≤ get_mtu s)%N.
Proof.
  intros Hrf Hs Hc Hu. destruct (reachable_keeps rf s Hrf Hs) as [Hwf _].
  pose proof (wf_mtu_length _ Hwf) as Hlen.
  unfold mtu_uniform, get_num_channels, get_mtu in *.
  destruct (N.lt_ge_cases (get_max_payload_size xport) (_mtu s)) as [Hlt|Hge].
  - rewrite connect_channel_lt by done. node_simpl.
    rewrite set_all_values, Hlen. split; [lia | done].
  - rewrite connect_channel_ge by done. cbn [store]. node_simpl. split.
    + intros Hu'. apply (f_equal (λ l, l !! channel)) in Hu'.
      rewrite list_lookup_fmap, list_lookup_alter_eq, lookup_replicate_2 in Hu' by done.
      destruct (_mtu_out s !! channel); simplify_eq/=. lia.
    + intros Hle. assert (get_max_payload_size xport = _mtu s) as -> by lia.
      rewrite <- Hu. apply list_eq. intros j. rewrite !list_lookup_fmap.
      destruct (decide (channel = j)) as [->|Hne]; [| by rewrite list_lookup_alter_ne].
      rewrite list_lookup_alter_eq.
      apply (f_equal (λ l, l !! j)) in Hu.
      rewrite list_lookup_fmap, lookup_replicate_2 in Hu by done.
      destruct (_mtu_out s !! j); simplify_eq/=. by f_equal.
Qed.

Lemma uniform_kept_iff_not_above_witness :
  mtu_uniform
    (connect_channel 1 2 (xport_of 1400)
       (connect_all 1 [ (0, xport_of 1500); (1, xport_of 1400) ] (node_of 4))).2.
Proof.
  apply (uniform_kept_iff_not_above 1
           (connect_all 1 [ (0, xport_of 1500); (1, xport_of 1400) ] (node_of 4))
           2 (xport_of 1400) (le_n 1)).
  - apply connect_all_reachable.
    apply (reachable_new 1 0 4 sc16_args (2 ^ 64 - 1) (node_of 4) 1 eq_refl).
  - vm_compute. lia.
  - vm_compute. reflexivity.
  - vm_compute. discriminate.
Defined.

Example uniform_lost_above :
  ¬ mtu_uniform
      (connect_channel 1 2 (xport_of 1500)
         (connect_all 1 [ (0, xport_of 1500); (1, xport_of 1400) ] (node_of 4))).2.
Proof. vm_compute. discriminate. Qed.
